(** * Verification of the babysitter of smhmayboudi/weaver

    A shallow embedding of [internal/babysitter/babysitter.go]: the routing
    engine ([routingAlgo], [nextPowerOfTwo]), the group registry and its
    spawn policy ([startColocationGroup]), the envelope callbacks
    ([StartComponent], [RegisterReplica], [ExportListener],
    [GetRoutingInfo]) and the lock skeleton of every method.

    Conventions.
    - Go's [uint64] and [int] are [Z]; every wrap-around is written out with
      [mod 2^64].
    - Go's [float64] is the IEEE-754 binary64 format of [SpecFloat]
      ([prec = 53], [emax = 1024]).
    - Go strings are [string]; [sort.Strings] compares them byte by byte,
      which is [String.ltb].
    - Go maps are [gmap]; slices are lists.  A slice that the callee sorts in
      place is returned by the model next to the result. *)

From Stdlib Require Import ZArith Lia String Ascii List Bool.
From Stdlib Require Import Floats.SpecFloat.
From stdpp Require Import base list sorting gmap strings fin_maps.

Local Open Scope Z_scope.

(** ** Machine integers *)

Definition uint64_mod : Z := 2 ^ 64.
Definition wrap64 (x : Z) : Z := x mod uint64_mod.

(** [math.MaxUint64] *)
Definition MaxUint64 : Z := 2 ^ 64 - 1.

(** ** float64, as far as [routingAlgo] uses it *)

Module Float64.

Definition prec : Z := 53.
Definition emax : Z := 1024.

(** [float64(x)] for an unsigned integer [x]: round to nearest, ties to
    even. *)
Definition of_uint64 (x : Z) : spec_float :=
  binary_normalize prec emax x 0 false.

(** The literal [0.5]. *)
Definition half : spec_float := S754_finite false (2 ^ 52) (-53).

Definition mul : spec_float -> spec_float -> spec_float :=
  SFmul prec emax.

(** [uint64(math.Floor(f))].  [math.Floor] rounds towards minus infinity
    and the conversion to [uint64] is exact on integral values below
    [2^64]; Go leaves the conversion of negative values, infinities and
    NaN to the platform, and [routingAlgo] never produces them (its
    argument lies in [[0, 2^63]]): the model returns 0 there. *)
Definition floor_to_uint64 (f : spec_float) : Z :=
  match f with
  | S754_finite false m e => wrap64 (Z.shiftl (Zpos m) e)
  | _ => 0
  end.

End Float64.

(** ** Sorting

    [sort.Strings] and [sort.Slice] are library calls; they are modelled as
    an insertion sort driven by the [less] function the source passes. *)

Section Sort.
Context {A : Type} (less : A -> A -> bool).

Fixpoint insertSorted (x : A) (l : list A) : list A :=
  match l with
  | [] => [x]
  | y :: l' => if less y x then y :: insertSorted x l' else x :: l
  end.

Fixpoint sortBy (l : list A) : list A :=
  match l with
  | [] => []
  | x :: l' => insertSorted x (sortBy l')
  end.
End Sort.

(** [sort.Strings]: ascending, [x[i] < x[j]] on bytes. *)
Definition sortStrings : list string -> list string := sortBy String.ltb.

(** ** Protocol messages ([protos.Assignment], [protos.Assignment_Slice]) *)

Record Assignment_Slice := mkSlice {
  Start : Z;                  (* uint64 *)
  Replicas : list string
}.

Record Assignment := mkAssignment {
  Slices : list Assignment_Slice;
  App : string;
  DeploymentId : string;
  Component : string;
  Version : Z                 (* uint64 *)
}.

(** ** The routing engine *)

(** [math.Ceil(math.Log2(float64(x)))] as an integer.  The three functions
    belong to Go's [math] package; they are taken at their mathematical
    value. *)
Definition ceilLog2 (x : Z) : Z := Z.log2_up x.

(** [nextPowerOfTwo] *)
Definition nextPowerOfTwo (x : Z) : Z :=
  if Z.land x (x - 1) =? 0 then x
  else 2 ^ ceilLog2 x.

(** [curr[0] + uint64(math.Floor(0.5*float64(curr[1]-curr[0])))] *)
Definition midPoint (curr : Z * Z) : Z :=
  wrap64 (curr.1 +
          Float64.floor_to_uint64
            (Float64.mul Float64.half
               (Float64.of_uint64 (wrap64 (curr.2 - curr.1))))).

(** One pass through the body of the splitting loop:
    [curr, splits = splits[0], splits[1:]] followed by the two appends.
    [None] is the index-out-of-range panic on an empty queue. *)
Definition splitStep (splits : list (Z * Z)) : option (list (Z * Z)) :=
  match splits with
  | [] => None
  | curr :: rest =>
      let m := midPoint curr in
      Some (rest ++ [(curr.1, m); (m, curr.2)])
  end.

(** [for ok := true; ok; ok = len(splits) != numSlices { ... }]: the body
    runs once before the first test.  [None] when the fuel is spent. *)
Fixpoint splitLoop (fuel : nat) (numSlices : Z) (splits : list (Z * Z))
  : option (list (Z * Z)) :=
  match fuel with
  | O => None
  | S fuel' =>
      match splitStep splits with
      | None => None
      | Some splits' =>
          if Z.of_nat (length splits') =? numSlices then Some splits'
          else splitLoop fuel' numSlices splits'
      end
  end.

(** The [less] function handed to [sort.Slice]. *)
Definition splitLess (a b : Z * Z) : bool := a.1 <=? b.1.

(** Round-robin assignment of the sorted splits;
    [rId = (rId + 1) % len(candidates)]. *)
Fixpoint roundRobin (candidates : list string) (rId : nat)
    (splits : list (Z * Z)) : list Assignment_Slice :=
  match splits with
  | [] => []
  | s :: rest =>
      mkSlice s.1 (match candidates !! rId with
                   | Some c => [c]
                   | None => []
                   end)
      :: roundRobin candidates (S rId mod length candidates)%nat rest
  end.

Definition withSlices (a : Assignment) (v : Z) (s : list Assignment_Slice)
  : Assignment :=
  mkAssignment s (App a) (DeploymentId a) (Component a) v.

(** [routingAlgo].  The result carries the new assignment and the
    [candidates] slice as the call leaves it (sorted in place).  The loop
    gets [numSlices] units of fuel, which is all it can use (lemma
    [splitLoop_fuel_enough] below); [None] is a run that does not return. *)
Definition routingAlgo (currAssignment : Assignment) (candidates : list string)
  : option (Assignment * list string) :=
  let version := wrap64 (Version currAssignment + 1) in
  let candidates := sortStrings candidates in
  match candidates with
  | [] => Some (withSlices currAssignment version [], candidates)
  | [_] =>
      Some (withSlices currAssignment version [mkSlice 0 candidates],
            candidates)
  | _ =>
      let numSlices := nextPowerOfTwo (Z.of_nat (length candidates)) in
      match splitLoop (Z.to_nat numSlices) numSlices [(0, MaxUint64)] with
      | None => None
      | Some splits =>
          let splits := sortBy splitLess splits in
          Some (withSlices currAssignment version
                  (roundRobin candidates 0 splits),
                candidates)
      end
  end.

(** ** Supervisor state *)

(** The default number of times a component is replicated. *)
Definition DefaultReplication : nat := 2.

(** Go's [error] values, as far as [ExportListener] inspects them: the
    chain [*net.OpError] - [*os.SyscallError] - [syscall.Errno] that
    [net.Listen] returns for a failed bind, and opaque errors. *)
Inductive error :=
| OpError (Op Net Addr : string) (Err : error)
| SyscallError (Syscall : string) (Err : error)
| Errno (n : Z)
| errorString (s : string)
| wrapError (prefix : string) (Err : error).   (* fmt.Errorf("...: %w", err) *)

(** [syscall.EADDRINUSE] (Linux). *)
Definition EADDRINUSE : Z := 98.

(** [errors.Is(err, target)] for a [syscall.Errno] target. *)
Fixpoint errorsIs (err : error) (target : Z) : bool :=
  match err with
  | OpError _ _ _ e => errorsIs e target
  | SyscallError _ e => errorsIs e target
  | Errno n => n =? target
  | errorString _ => false
  | wrapError _ e => errorsIs e target
  end.

(** [err.Error()] *)
Fixpoint Error (err : error) : string :=
  match err with
  | OpError op net addr e =>
      (op ++ " " ++ net ++ " " ++ addr ++ ": " ++ Error e)%string
  | SyscallError sc e => (sc ++ ": " ++ Error e)%string
  | Errno n =>
      if n =? EADDRINUSE then "address already in use"%string
      else "errno"%string
  | errorString s => s
  | wrapError prefix e => (prefix ++ Error e)%string
  end.

(** [protos.WeaveletInfo] as [startColocationGroup] fills it; the two fresh
    UUIDs are left out.  An envelope handle is identified with the
    description it was built from. *)
Record WeaveletInfo := mkWeaveletInfo {
  wi_App : string;
  wi_DeploymentId : string;
  wi_Group : string;
  wi_SingleMachine : bool
}.

Definition Envelope := WeaveletInfo.

(** [protos.RoutingInfo] (its [Version] field is stamped by
    [GetRoutingInfo] only). *)
Record RoutingInfo := mkRoutingInfo {
  ri_Replicas : list string;
  ri_Assignments : list Assignment
}.

(** A co-location group.  [components] and [routing] are the values held by
    the two versioned cells. *)
Record group := mkGroup {
  name : string;
  components : gmap string bool;
  routing : RoutingInfo;
  envelopes : list Envelope;
  pids : list Z
}.

Record proxyInfo := mkProxyInfo {
  listener : string;
  proxy : list string;      (* the proxy's backends, in AddBackend order *)
  addr : string
}.

Record Babysitter := mkBabysitter {
  dep_App : string;         (* b.dep.App.Name *)
  dep_Id : string;          (* b.dep.Id *)
  groups : gmap string group;
  proxies : gmap string proxyInfo
}.

(** The state [NewBabysitter] builds. *)
Definition NewBabysitter (app dep : string) : Babysitter :=
  mkBabysitter app dep ∅ ∅.

Definition setGroups (b : Babysitter) (gs : gmap string group) : Babysitter :=
  mkBabysitter (dep_App b) (dep_Id b) gs (proxies b).

Definition setProxies (b : Babysitter) (ps : gmap string proxyInfo)
  : Babysitter :=
  mkBabysitter (dep_App b) (dep_Id b) (groups b) ps.

(** Groups are held by pointer: a write through the pointer read from
    [b.groups[nm]] is a write to that map entry. *)
Definition storeGroup (nm : string) (g : group) (b : Babysitter)
  : Babysitter :=
  setGroups b (<[nm := g]> (groups b)).

Definition setComponents (g : group) (c : gmap string bool) : group :=
  mkGroup (name g) c (routing g) (envelopes g) (pids g).
Definition setRouting (g : group) (r : RoutingInfo) : group :=
  mkGroup (name g) (components g) r (envelopes g) (pids g).
Definition setEnvelopes (g : group) (e : list Envelope) : group :=
  mkGroup (name g) (components g) (routing g) e (pids g).
Definition setPids (g : group) (p : list Z) : group :=
  mkGroup (name g) (components g) (routing g) (envelopes g) p.

(** [b.group(name)]: get or create. *)
Definition getGroup (nm : string) (b : Babysitter) : Babysitter * group :=
  match groups b !! nm with
  | Some g => (b, g)
  | None =>
      let g := mkGroup nm ∅ (mkRoutingInfo [] []) [] [] in
      (setGroups b (<[nm := g]> (groups b)), g)
  end.

(** The body of the spawn loop of [startColocationGroup], [n] iterations
    from index [r].  [newEnvelope r] is the answer of the environment to the
    [envelope.NewEnvelope] call of iteration [r] ([None] is success). *)
Fixpoint spawnLoop (newEnvelope : nat -> option error) (b : Babysitter)
    (n r : nat) (g : group) : group * option error :=
  match n with
  | O => (g, None)
  | S n' =>
      let wlet := mkWeaveletInfo (dep_App b) (dep_Id b) (name g) true in
      match newEnvelope r with
      | Some err => (g, Some err)
      | None =>
          spawnLoop newEnvelope b n' (S r)
            (setEnvelopes g (envelopes g ++ [wlet]))
      end
  end.

(** [startColocationGroup] *)
Definition startColocationGroup (newEnvelope : nat -> option error)
    (b : Babysitter) (g : group) : group * option error :=
  if (length (envelopes g) =? DefaultReplication)%nat then (g, None)
  else spawnLoop newEnvelope b DefaultReplication 0 g.

Record ComponentToStart := mkComponentToStart {
  cts_ColocationGroup : string;
  cts_Component : string;
  cts_IsRouted : bool
}.

(** Go's map read [m[k]] on a [map[string]bool]: [false] when absent. *)
Definition isStarted (m : gmap string bool) (c : string) : bool :=
  default false (m !! c).

(** [StartComponent].  The outer [option] is [None] when the call does not
    return; the inner one is the Go error. *)
Definition StartComponent (req : ComponentToStart)
    (newEnvelope : nat -> option error) (b : Babysitter)
  : option (Babysitter * option error) :=
  let '(b, g) := getGroup (cts_ColocationGroup req) b in
  if isStarted (components g) (cts_Component req) then Some (b, None)
  else
    let g := setComponents g (<[cts_Component req := true]> (components g)) in
    g' ← (if cts_IsRouted req then
            let assignment :=
              mkAssignment [] (dep_App b) (dep_Id b) (cts_Component req) 0 in
            '(assignment, replicas) ←
              routingAlgo assignment (ri_Replicas (routing g));
            Some (setRouting g
                    (mkRoutingInfo replicas
                       (ri_Assignments (routing g) ++ [assignment])))
          else Some g);
    let '(g'', err) := startColocationGroup newEnvelope b g' in
    Some (storeGroup (cts_ColocationGroup req) g'' b, err).

Record ReplicaToRegister := mkReplicaToRegister {
  rtr_Group : string;
  rtr_Address : string;
  rtr_Pid : Z
}.

(** The loop [for i, assignment := range Assignments] of [RegisterReplica]:
    every call sorts the shared [Replicas] slice in place. *)
Fixpoint reassign (assignments : list Assignment) (replicas : list string)
  : option (list Assignment * list string) :=
  match assignments with
  | [] => Some ([], replicas)
  | a :: rest =>
      '(a', replicas') ← routingAlgo a replicas;
      '(rest', replicas'') ← reassign rest replicas';
      Some (a' :: rest', replicas'')
  end.

(** [RegisterReplica] *)
Definition RegisterReplica (req : ReplicaToRegister) (b : Babysitter)
  : option (Babysitter * option error) :=
  let '(b, g) := getGroup (rtr_Group req) b in
  if existsb (String.eqb (rtr_Address req)) (ri_Replicas (routing g))
  then Some (b, None)
  else
    let replicas := ri_Replicas (routing g) ++ [rtr_Address req] in
    '(assignments, replicas) ← reassign (ri_Assignments (routing g)) replicas;
    let g := setRouting g (mkRoutingInfo replicas assignments) in
    let g := setPids g (pids g ++ [rtr_Pid req]) in
    Some (storeGroup (rtr_Group req) g b, None).

(** [GetRoutingInfo], once the versioned cell lets the reader through: the
    clone of the stored routing info. *)
Definition GetRoutingInfo (grp : string) (b : Babysitter)
  : Babysitter * RoutingInfo :=
  let '(b, g) := getGroup grp b in (b, routing g).

(** [GetComponentsToStart], once the versioned cell lets the reader
    through: [maps.Keys(g.components.Val)].  Go leaves the order of the
    keys unspecified; the reply is modelled as their set. *)
Definition GetComponentsToStart (grp : string) (b : Babysitter)
  : Babysitter * gset string :=
  let '(b, g) := getGroup grp b in (b, dom (components g)).

Record ExportListenerRequest := mkExportListenerRequest {
  elr_Listener_Name : string;
  elr_Listener_Addr : string;
  elr_LocalAddress : string
}.

Record ExportListenerReply := mkExportListenerReply {
  ProxyAddress : string;
  reply_Error : string
}.

(** What [net.Listen("tcp", req.LocalAddress)] answers: a listener, known
    by [lis.Addr().String()], or an error. *)
Inductive ListenResult :=
| ListenOk (a : string)
| ListenErr (err : error).

(** [ExportListener] *)
Definition ExportListener (req : ExportListenerRequest) (listen : ListenResult)
    (b : Babysitter)
  : Babysitter * option ExportListenerReply * option error :=
  match proxies b !! elr_Listener_Name req with
  | Some p =>
      let p' := mkProxyInfo (listener p) (proxy p ++ [elr_Listener_Addr req])
                  (addr p) in
      (setProxies b (<[elr_Listener_Name req := p']> (proxies b)),
       Some (mkExportListenerReply (addr p) ""), None)
  | None =>
      match listen with
      | ListenErr err =>
          if errorsIs err EADDRINUSE
          then (b, Some (mkExportListenerReply "" (Error err)), None)
          else (b, None, Some (wrapError "proxy listen: " err))
      | ListenOk a =>
          let p := mkProxyInfo (elr_Listener_Name req)
                     [elr_Listener_Addr req] a in
          (setProxies b (<[elr_Listener_Name req := p]> (proxies b)),
           Some (mkExportListenerReply a ""), None)
      end
  end.

(** ** Sequences of callbacks *)

(** A callback arriving from a worker, with the answers of the environment
    it will see. *)
Inductive call :=
| CallStartComponent (req : ComponentToStart)
    (newEnvelope : nat -> option error)
| CallRegisterReplica (req : ReplicaToRegister).

Definition step (c : call) (b : Babysitter) : option Babysitter :=
  match c with
  | CallStartComponent req newEnvelope =>
      fst <$> StartComponent req newEnvelope b
  | CallRegisterReplica req => fst <$> RegisterReplica req b
  end.

(** The calls of [cs], one after the other. *)
Definition run (cs : list call) (b : Babysitter) : option Babysitter :=
  foldl (fun ob c => ob ≫= step c) (Some b) cs.

(** ** Lock skeleton *)

Module Locks.

Inductive cell := Components | Routing.

(** The locks of the supervisor: [b.mu], [g.mu] and the lock of the
    versioned cells [g.components] and [g.routing]. *)
Inductive lock :=
| SupervisorMu
| GroupMu (g : string)
| CellLock (g : string) (c : cell).

Inductive event :=
| Acquire (l : lock)
| Release (l : lock).

Definition cell_eqb (c1 c2 : cell) : bool :=
  match c1, c2 with
  | Components, Components | Routing, Routing => true
  | _, _ => false
  end.

Definition lock_eqb (l1 l2 : lock) : bool :=
  match l1, l2 with
  | SupervisorMu, SupervisorMu => true
  | GroupMu g1, GroupMu g2 => String.eqb g1 g2
  | CellLock g1 c1, CellLock g2 c2 => String.eqb g1 g2 && cell_eqb c1 c2
  | _, _ => false
  end.

(** The lock and unlock calls of every method, in program order (deferred
    unlocks run last, in reverse order), one definition per method and one
    argument per branch that changes them. *)

(** [group], [allGroups], [allProxies], [ExportListener]: [b.mu] only. *)
Definition supervisor_locks : list event :=
  [Acquire SupervisorMu; Release SupervisorMu].

Definition startColocationGroup_locks (g : string) : list event :=
  [Acquire (GroupMu g); Release (GroupMu g)].

Definition StartComponent_locks (g : string) (started routed : bool)
  : list event :=
  supervisor_locks ++
  [Acquire (CellLock g Components); Release (CellLock g Components)] ++
  (if started then []
   else (if routed
         then [Acquire (CellLock g Routing); Release (CellLock g Routing)]
         else []) ++
        startColocationGroup_locks g).

Definition RegisterReplica_locks (g : string) (registered : bool)
  : list event :=
  supervisor_locks ++
  [Acquire (CellLock g Routing)] ++
  (if registered then []
   else [Acquire (GroupMu g); Release (GroupMu g)]) ++
  [Release (CellLock g Routing)].

Definition GetComponentsToStart_locks (g : string) : list event :=
  supervisor_locks ++
  [Acquire (CellLock g Components); Release (CellLock g Components)].

Definition GetRoutingInfo_locks (g : string) : list event :=
  supervisor_locks ++
  [Acquire (CellLock g Routing); Release (CellLock g Routing)].

(** [readMetrics], also run by [Metrics]; [Profile] locks the same way. *)
Definition readMetrics_locks (gs : list string) : list event :=
  supervisor_locks ++
  flat_map (fun g => [Acquire (GroupMu g); Release (GroupMu g)]) gs.

Definition Status_locks (gs : list string) : list event :=
  supervisor_locks ++
  flat_map (fun g => [Acquire (CellLock g Components);
                      Release (CellLock g Components);
                      Acquire (GroupMu g); Release (GroupMu g)]) gs ++
  supervisor_locks.

(** Every path through every method, for a request on group [g] and a
    supervisor whose groups are [gs]. *)
Definition methodPaths (g : string) (gs : list string) : list (list event) :=
  [supervisor_locks;
   startColocationGroup_locks g;
   StartComponent_locks g true false; StartComponent_locks g true true;
   StartComponent_locks g false false; StartComponent_locks g false true;
   RegisterReplica_locks g true; RegisterReplica_locks g false;
   GetComponentsToStart_locks g; GetRoutingInfo_locks g;
   readMetrics_locks gs; Status_locks gs].

(** The order the specification states: supervisor mutex, group mutex,
    versioned-cell lock. *)
Definition specOrder (l : lock) : nat :=
  match l with
  | SupervisorMu => 0
  | GroupMu _ => 1
  | CellLock _ _ => 2
  end.

(** The order the code follows: supervisor mutex, versioned-cell lock,
    group mutex. *)
Definition codeOrder (l : lock) : nat :=
  match l with
  | SupervisorMu => 0
  | CellLock _ _ => 1
  | GroupMu _ => 2
  end.

(** [ordered rank held tr]: along [tr], started with the locks [held], a
    lock is acquired only while every lock held ranks strictly below it. *)
Fixpoint ordered (rank : lock -> nat) (held : list lock) (tr : list event)
  : bool :=
  match tr with
  | [] => true
  | Acquire l :: tr' =>
      forallb (fun h => rank h <? rank l)%nat held &&
      ordered rank (l :: held) tr'
  | Release l :: tr' =>
      ordered rank (List.filter (fun h => negb (lock_eqb h l)) held) tr'
  end.

End Locks.

(** * Vocabulary of the statements *)

(** ** Order on strings *)

Definition str_le (a b : string) : Prop := (a <=? b)%string = true.

(** ** Levels of the bisection *)

Definition splitOne (c : Z * Z) : list (Z * Z) :=
  [(c.1, midPoint c); (midPoint c, c.2)].

(** Every interval of a queue bisected, in order. *)
Definition splitAll (q : list (Z * Z)) : list (Z * Z) := flat_map splitOne q.

(** The queue after [k] full breadth-first passes. *)
Fixpoint level (k : nat) : list (Z * Z) :=
  match k with
  | O => [(0, MaxUint64)]
  | S k' => splitAll (level k')
  end.

(** [uint64(math.Floor(0.5*float64(w)))] *)
Definition halfWidth (w : Z) : Z :=
  Float64.floor_to_uint64
    (Float64.mul Float64.half (Float64.of_uint64 w)).

(** At depth [k] every interval has width [2^(64-k)] or one less. *)
Definition widthOK (m w : Z) : Prop := w = 2 ^ m \/ w = 2 ^ m - 1.

Definition widthOKb (m w : Z) : bool := (w =? 2 ^ m) || (w =? 2 ^ m - 1).

(** Both halves of an interval of width [w] have an admissible width one
    level down. *)
Definition halvesOK (m w : Z) : bool :=
  widthOKb (m - 1) (halfWidth w) && widthOKb (m - 1) (w - halfWidth w).

Definition halfCheck (m : nat) : bool :=
  halvesOK (Z.of_nat m) (2 ^ Z.of_nat m) &&
  halvesOK (Z.of_nat m) (2 ^ Z.of_nat m - 1).

(** [chain lo l hi]: the intervals of [l] are non-empty, each starts where
    the previous one ends, the first at [lo] and the last ends at [hi]. *)
Fixpoint chain (lo : Z) (l : list (Z * Z)) (hi : Z) : Prop :=
  match l with
  | [] => lo = hi
  | c :: l' => c.1 = lo /\ c.1 < c.2 /\ chain c.2 l' hi
  end.

(** ** Coverage and load *)

(** The end of slice [i]: the start of the next slice, [2^64] for the
    last. *)
Definition sliceEnd (slices : list Assignment_Slice) (i : nat) : Z :=
  match slices !! S i with
  | Some s => Start s
  | None => 2 ^ 64
  end.

(** Slice [i] covers [[start, next_start)]. *)
Definition covers (slices : list Assignment_Slice) (i : nat) (key : Z)
  : Prop :=
  exists s, slices !! i = Some s /\ Start s <= key < sliceEnd slices i.

(** The largest number of candidates for which [numSlices] fits Go's
    64-bit [int]. *)
Definition maxCandidates : Z := 2 ^ 62.

(** The number of slices whose replica is [c]. *)
Definition slicesOf (c : string) (slices : list Assignment_Slice) : nat :=
  length (filter (fun s => Replicas s = [c]) slices).





(** ** Environments and states used as examples *)

(** An environment in which the second [envelope.NewEnvelope] of a spawn
    fails, and one in which every call succeeds. *)
Definition failSecond (r : nat) : option error :=
  if (r =? 1)%nat then Some (errorString "cannot start weavelet") else None.

Definition allOk (r : nat) : option error := None.

Definition failFirst (r : nat) : option error :=
  Some (errorString "cannot start weavelet").

(** The bind error of a port that is taken. *)
Definition addrInUse (a : string) : error :=
  OpError "listen" "tcp" a (SyscallError "bind" (Errno EADDRINUSE)).

(** The state after [RegisterReplica("g", "b", 100)] and
    [StartComponent("c", "g", routed)] on a fresh supervisor. *)
Definition oneReplicaState : Babysitter :=
  storeGroup "g"
    (mkGroup "g" {["c" := true]}
       (mkRoutingInfo ["b"%string]
          [mkAssignment [mkSlice 0 ["b"%string]] "app" "dep" "c" 1])
       [mkWeaveletInfo "app" "dep" "g" true;
        mkWeaveletInfo "app" "dep" "g" true]
       [100])
    (NewBabysitter "app" "dep").

(** ** Observations on runs *)

(** The [is_routed] flag of the first [StartComponent] of [cs] for
    component [c] of group [grp]: the call that marks it started. *)
Fixpoint markedBy (cs : list call) (grp c : string) : option bool :=
  match cs with
  | [] => None
  | CallStartComponent req _ :: cs' =>
      if bool_decide (cts_ColocationGroup req = grp /\ cts_Component req = c)
      then Some (cts_IsRouted req)
      else markedBy cs' grp c
  | CallRegisterReplica _ :: cs' => markedBy cs' grp c
  end.

Definition startedIn (b : Babysitter) (grp c : string) : bool :=
  match groups b !! grp with
  | Some g => isStarted (components g) c
  | None => false
  end.

Definition assignmentsOf (b : Babysitter) (grp : string) : list Assignment :=
  match groups b !! grp with
  | Some g => ri_Assignments (routing g)
  | None => []
  end.

(** The number of entries of the group's routing assignments whose
    component field is [c]. *)
Definition assignmentsFor (b : Babysitter) (grp c : string) : nat :=
  length (filter (fun a => Component a = c) (assignmentsOf b grp)).

(** ** Exact boundaries *)

(** The start keys of level [d] are the multiples of [2^(64-d)]. *)
Definition levelExact (d : nat) : bool :=
  bool_decide ((level d).*1 =
               (fun i => Z.of_nat i * 2 ^ (64 - Z.of_nat d)) <$> seq 0 (2 ^ d)).

(** ** Observations on the supervisor state *)

(** The record [b.group(grp)] would return: the stored one, or the empty
    one it would create. *)
Definition emptyGroup (nm : string) : group :=
  mkGroup nm ∅ (mkRoutingInfo [] []) [] [].

Definition groupView (b : Babysitter) (grp : string) : group :=
  default (emptyGroup grp) (groups b !! grp).

Definition replicasOf (b : Babysitter) (grp : string) : list string :=
  ri_Replicas (routing (groupView b grp)).

Definition pidsOf (b : Babysitter) (grp : string) : list Z :=
  pids (groupView b grp).

(** The group a callback addresses. *)
Definition callGroup (c : call) : string :=
  match c with
  | CallStartComponent req _ => cts_ColocationGroup req
  | CallRegisterReplica req => rtr_Group req
  end.

(** The addresses that the [RegisterReplica] calls of [cs] name for group
    [grp], in call order, repetitions included. *)
Fixpoint registered (cs : list call) (grp : string) : list string :=
  match cs with
  | [] => []
  | CallRegisterReplica req :: cs' =>
      if bool_decide (rtr_Group req = grp)
      then rtr_Address req :: registered cs' grp
      else registered cs' grp
  | CallStartComponent _ _ :: cs' => registered cs' grp
  end.

(** A sequence of [ExportListener] calls, each with the answer
    [net.Listen] would give it. *)
Definition runExports (es : list (ExportListenerRequest * ListenResult))
    (b : Babysitter) : Babysitter :=
  foldl (fun b e => (ExportListener e.1 e.2 b).1.1) b es.

(** An assignment is up to date for a list of replicas when running
    [routingAlgo] on it with these replicas would return the slices it
    has. *)
Definition upToDate (replicas : list string) (asg : Assignment) : Prop :=
  exists asg',
    routingAlgo asg replicas = Some (asg', sortStrings replicas) /\
    Slices asg' = Slices asg.

(** Every [envelope.NewEnvelope] that the calls of [cs] would make
    succeeds. *)
Definition spawnsSucceed (cs : list call) : Prop :=
  forall req o, CallStartComponent req o ∈ cs -> forall r, o r = None.

(** * Properties *)

(** ** Byte-lexicographic order on strings *)

Lemma ascii_compare_lt_trans (a b c : ascii) :
  Ascii.compare a b = Lt -> Ascii.compare b c = Lt -> Ascii.compare a c = Lt.
Proof.
  unfold Ascii.compare. rewrite !N.compare_lt_iff. apply N.lt_trans.
Qed.

Lemma string_compare_not_gt_trans (s1 s2 s3 : string) :
  String.compare s1 s2 <> Gt -> String.compare s2 s3 <> Gt ->
  String.compare s1 s3 <> Gt.
Proof.
  revert s2 s3. induction s1 as [|a s1 IH]; intros [|b s2] [|c s3];
    simpl; try congruence.
  destruct (Ascii.compare a b) eqn:Hab; try congruence;
    destruct (Ascii.compare b c) eqn:Hbc; try congruence.
  - apply Ascii.compare_eq_iff in Hab, Hbc. subst.
    assert (Ascii.compare c c = Eq) as ->
        by (unfold Ascii.compare; apply N.compare_refl).
    apply IH.
  - apply Ascii.compare_eq_iff in Hab. subst. rewrite Hbc. congruence.
  - apply Ascii.compare_eq_iff in Hbc. subst. rewrite Hab. congruence.
  - rewrite (ascii_compare_lt_trans _ _ _ Hab Hbc). congruence.
Qed.

Lemma leb_not_gt (a b : string) :
  (a <=? b)%string = true <-> String.compare a b <> Gt.
Proof. unfold String.leb. destruct (String.compare a b); split; congruence. Qed.

#[local] Instance str_le_trans : Transitive str_le.
Proof.
  intros a b c. unfold str_le. rewrite !leb_not_gt.
  apply string_compare_not_gt_trans.
Qed.

#[local] Instance str_le_antisym : AntiSymm (=) str_le.
Proof. intros a b. apply String.leb_antisym. Qed.

Lemma ltb_true_le (a b : string) : (a <? b)%string = true -> str_le a b.
Proof.
  unfold String.ltb, str_le, String.leb.
  destruct (String.compare a b); congruence.
Qed.

Lemma ltb_false_le (a b : string) : (a <? b)%string = false -> str_le b a.
Proof.
  unfold String.ltb, str_le, String.leb.
  rewrite (String.compare_antisym b a).
  destruct (String.compare a b); simpl; congruence.
Qed.

(** ** The insertion sort sorts *)

Section SortFacts.
Context {A : Type} (less : A -> A -> bool) (R : relation A).
Hypothesis less_true : forall y x, less y x = true -> R y x.
Hypothesis less_false : forall y x, less y x = false -> R x y.

Lemma insertSorted_perm (x : A) (l : list A) :
  insertSorted less x l ≡ₚ x :: l.
Proof.
  induction l as [|y l IH]; simpl; [done|].
  destruct (less y x); [|done].
  rewrite IH. apply Permutation_swap.
Qed.

Lemma sortBy_perm (l : list A) : sortBy less l ≡ₚ l.
Proof.
  induction l as [|x l IH]; simpl; [done|].
  by rewrite insertSorted_perm, IH.
Qed.

Lemma insertSorted_sorted (x : A) (l : list A) :
  Sorted R l -> Sorted R (insertSorted less x l).
Proof.
  induction 1 as [|y l Hs IH Hhd]; simpl.
  - repeat constructor.
  - destruct (less y x) eqn:Hyx.
    + constructor; [exact IH|].
      destruct Hhd as [|z l' Hyz]; simpl.
      * constructor. by apply less_true.
      * destruct (less z x); constructor; [done | by apply less_true].
    + constructor; [by constructor|]. constructor. by apply less_false.
Qed.

Lemma sortBy_sorted (l : list A) : Sorted R (sortBy less l).
Proof.
  induction l as [|x l IH]; simpl; [constructor|].
  by apply insertSorted_sorted.
Qed.

Lemma sortBy_length (l : list A) : length (sortBy less l) = length l.
Proof. apply Permutation_length, sortBy_perm. Qed.
End SortFacts.

Lemma sortStrings_perm (l : list string) : sortStrings l ≡ₚ l.
Proof. apply sortBy_perm. Qed.

Lemma sortStrings_sorted (l : list string) : Sorted str_le (sortStrings l).
Proof. apply sortBy_sorted; [apply ltb_true_le | apply ltb_false_le]. Qed.

Lemma sortStrings_length (l : list string) :
  length (sortStrings l) = length l.
Proof. apply sortBy_length. Qed.

(** Two permutations of one another sort to the same list. *)
Lemma sortStrings_perm_eq (xs ys : list string) :
  xs ≡ₚ ys -> sortStrings xs = sortStrings ys.
Proof.
  intros Hp. apply (Sorted_unique str_le); try apply sortStrings_sorted.
  by rewrite !sortStrings_perm.
Qed.

Lemma sortStrings_fixed (l : list string) :
  Sorted str_le l -> sortStrings l = l.
Proof.
  intros Hs. apply (Sorted_unique str_le); [apply sortStrings_sorted|done|].
  apply sortStrings_perm.
Qed.

Lemma sortStrings_idem (l : list string) :
  sortStrings (sortStrings l) = sortStrings l.
Proof. apply sortStrings_fixed, sortStrings_sorted. Qed.

(** ** The splitting loop *)

Lemma splitAll_length (q : list (Z * Z)) :
  length (splitAll q) = (2 * length q)%nat.
Proof. induction q as [|c q IH]; simpl; lia. Qed.

Lemma level_length (k : nat) : length (level k) = (2 ^ k)%nat.
Proof.
  induction k as [|k IH]; [done|].
  cbn [level]. rewrite splitAll_length, IH, Nat.pow_succ_r'. lia.
Qed.

Lemma level_nonempty (k : nat) : level k <> [].
Proof.
  intros H. pose proof (level_length k) as Hl. rewrite H in Hl.
  simpl in Hl. pose proof (Nat.pow_nonzero 2 k). lia.
Qed.

(** The loop never returns once the queue is as long as [numSlices]: its
    length only grows. *)
Lemma splitLoop_never (fuel : nat) (N : Z) (q : list (Z * Z)) :
  N <= Z.of_nat (length q) -> splitLoop fuel N q = None.
Proof.
  revert q. induction fuel as [|fuel IH]; intros q Hq; [done|].
  simpl. destruct q as [|c q]; [done|]. simpl.
  destruct (Z.eqb_spec (Z.of_nat (length (q ++ [(c.1, midPoint c); (midPoint c, c.2)]))) N)
    as [He|_].
  - rewrite length_app in He. simpl in *. lia.
  - apply IH. rewrite length_app. simpl in *. lia.
Qed.

(** It returns after [numSlices - len(splits)] passes when the queue is
    shorter than [numSlices], and more fuel changes nothing. *)
Lemma splitLoop_fuel_enough (fuel : nat) (N : Z) (q : list (Z * Z)) :
  q <> [] -> Z.of_nat (length q) < N ->
  N - Z.of_nat (length q) <= Z.of_nat fuel ->
  exists r, splitLoop fuel N q = Some r /\ Z.of_nat (length r) = N /\
            forall fuel', (fuel <= fuel')%nat -> splitLoop fuel' N q = Some r.
Proof.
  revert q. induction fuel as [|fuel IH]; intros q Hne Hlt Hf; [lia|].
  destruct q as [|c q]; [done|]. simpl.
  set (q' := q ++ [(c.1, midPoint c); (midPoint c, c.2)]).
  assert (Hl : length q' = S (length (c :: q)))
    by (unfold q'; rewrite length_app; simpl; lia).
  destruct (Z.eqb_spec (Z.of_nat (length q')) N) as [He|Hn].
  - exists q'. split; [done|]. split; [done|].
    intros [|f'] Hf'; [lia|]. simpl. fold q'.
    by destruct (Z.eqb_spec (Z.of_nat (length q')) N).
  - destruct (IH q') as (r & Hr & Hlen & Hmono).
    + unfold q'. by destruct q.
    + simpl in *. lia.
    + simpl in *. lia.
    + exists r. split; [done|]. split; [done|].
      intros [|f'] Hf'; [lia|]. simpl. fold q'.
      destruct (Z.eqb_spec (Z.of_nat (length q')) N); [done|].
      apply Hmono. lia.
Qed.

(** One breadth-first pass over the front [q] of the queue. *)
Lemma splitLoop_pass (N : Z) (q acc : list (Z * Z)) (fuel : nat) :
  q <> [] ->
  2 * Z.of_nat (length q) + Z.of_nat (length acc) <= N ->
  (length q <= fuel)%nat ->
  splitLoop fuel N (q ++ acc) =
    if 2 * Z.of_nat (length q) + Z.of_nat (length acc) =? N
    then Some (acc ++ splitAll q)
    else splitLoop (fuel - length q) N (acc ++ splitAll q).
Proof.
  revert acc fuel. induction q as [|c q IH]; intros acc fuel Hne Hle Hf;
    [done|].
  destruct fuel as [|fuel]; [simpl in Hf; lia|].
  cbn [splitLoop app splitStep].
  rewrite <- app_assoc.
  set (lr := [(c.1, midPoint c); (midPoint c, c.2)]).
  assert (Hlen : Z.of_nat (length (q ++ acc ++ lr)) =
                 Z.of_nat (length q) + Z.of_nat (length acc) + 2)
    by (unfold lr; rewrite !length_app; simpl; lia).
  rewrite Hlen. cbn [length] in *.
  destruct q as [|c' q].
  - simpl. replace (fuel - 0)%nat with fuel by lia.
    replace (Z.of_nat 0 + Z.of_nat (length acc) + 2) with
      (2 * Z.of_nat 1 + Z.of_nat (length acc)) by lia.
    done.
  - destruct (Z.eqb_spec (Z.of_nat (length (c' :: q)) + Z.of_nat (length acc) + 2) N)
      as [He|_]; [cbn [length] in *; lia|].
    rewrite (IH (acc ++ lr) fuel); [|done| |cbn [length] in *; lia].
    2:{ rewrite length_app. unfold lr. cbn [length] in *. lia. }
    replace (2 * Z.of_nat (length (c' :: q)) + Z.of_nat (length (acc ++ lr)))
      with (2 * Z.of_nat (S (length (c' :: q))) + Z.of_nat (length acc)).
    2:{ rewrite length_app. unfold lr. cbn [length]. lia. }
    replace (S fuel - S (length (c' :: q)))%nat
      with (fuel - length (c' :: q))%nat by lia.
    replace ((acc ++ lr) ++ splitAll (c' :: q))
      with (acc ++ splitAll (c :: c' :: q)); [done|].
    rewrite <- app_assoc. done.
Qed.

(** Started from level [k], the loop with bound [2^d] stops on level [d]. *)
Lemma splitLoop_levels (d k fuel : nat) :
  (k < d)%nat -> (2 ^ d - 2 ^ k <= fuel)%nat ->
  splitLoop fuel (2 ^ Z.of_nat d) (level k) = Some (level d).
Proof.
  intros Hkd. remember (d - k)%nat as j eqn:Hj.
  revert k fuel Hkd Hj. induction j as [|j IH]; intros k fuel Hkd Hj Hf;
    [lia|].
  assert (Hpow : forall n, Z.of_nat (2 ^ n) = 2 ^ Z.of_nat n).
  { intros n. rewrite Nat2Z.inj_pow. done. }
  assert (Hmono : (2 ^ S k <= 2 ^ d)%nat) by (apply Nat.pow_le_mono_r; lia).
  rewrite Nat.pow_succ_r' in Hmono.
  pose proof (splitLoop_pass (2 ^ Z.of_nat d) (level k) [] fuel) as Hp.
  rewrite app_nil_r in Hp. rewrite Hp; clear Hp.
  - simpl length. rewrite level_length, Z.add_0_r.
    destruct (Z.eqb_spec (2 * Z.of_nat (2 ^ k)) (2 ^ Z.of_nat d)) as [He|Hn].
    + f_equal. simpl.
      assert (d = S k) as ->; [|done].
      rewrite <- Hpow in He.
      assert (2 ^ S k = 2 ^ d)%nat as Hinj
        by (rewrite Nat.pow_succ_r'; lia).
      apply Nat.pow_inj_r in Hinj; lia.
    + simpl app. change (splitAll (level k)) with (level (S k)).
      assert (S k <> d).
      { intros <-. apply Hn. rewrite <- Hpow, Nat.pow_succ_r'. lia. }
      apply IH; [lia|lia|].
      rewrite Nat.pow_succ_r'. lia.
  - apply level_nonempty.
  - simpl length. rewrite level_length, <- Hpow. lia.
  - rewrite level_length. lia.
Qed.

(** ** [nextPowerOfTwo] *)

Lemma land_pred_zero_pow2 (x : Z) :
  0 < x -> Z.land x (x - 1) = 0 -> x = 2 ^ Z.log2 x.
Proof.
  intros Hx Hl.
  destruct (Z.log2_spec x Hx) as [Hlo Hhi].
  destruct (Z.eq_dec x (2 ^ Z.log2 x)) as [|Hne]; [done|exfalso].
  assert (Hk : Z.log2 (x - 1) = Z.log2 x).
  { apply Z.log2_unique; [apply Z.log2_nonneg|].
    lia. }
  assert (Hb : Z.testbit (Z.land x (x - 1)) (Z.log2 x) = true).
  { rewrite Z.land_spec, Z.bit_log2 by done.
    rewrite <- Hk, Z.bit_log2; [done|].
    pose proof (Z.pow_pos_nonneg 2 (Z.log2 x) ltac:(lia) (Z.log2_nonneg x)).
    lia. }
  rewrite Hl, Z.bits_0 in Hb. done.
Qed.

(** For [x >= 2] the result is the smallest power of two that is at least
    [x]. *)
Lemma nextPowerOfTwo_spec (x : Z) :
  2 <= x ->
  exists d : nat, (1 <= d)%nat /\ nextPowerOfTwo x = 2 ^ Z.of_nat d /\
                  x <= 2 ^ Z.of_nat d /\ 2 ^ Z.of_nat d < 2 * x.
Proof.
  intros Hx. unfold nextPowerOfTwo, ceilLog2.
  destruct (Z.eqb_spec (Z.land x (x - 1)) 0) as [Hl|_].
  - apply land_pred_zero_pow2 in Hl; [|lia].
    assert (0 < Z.log2 x) by (apply Z.log2_pos; lia).
    exists (Z.to_nat (Z.log2 x)). rewrite Z2Nat.id by lia.
    split; [clear Hl; lia|]. rewrite <- Hl. clear Hl. lia.
  - destruct (Z.log2_up_spec x ltac:(lia)) as [Hlo Hhi].
    assert (0 < Z.log2_up x) by (apply Z.log2_up_pos; lia).
    exists (Z.to_nat (Z.log2_up x)). rewrite Z2Nat.id by lia.
    assert (He : 2 ^ Z.log2_up x = 2 * 2 ^ Z.pred (Z.log2_up x)).
    { rewrite <- Z.pow_succ_r by lia. f_equal. lia. }
    split; [lia|]. split; [done|]. split; [lia|].
    rewrite He. lia.
Qed.


(** ** Shape of the result of [routingAlgo] *)

Lemma pow2_nat_Z (n : nat) : Z.of_nat (2 ^ n) = 2 ^ Z.of_nat n.
Proof. by rewrite Nat2Z.inj_pow. Qed.

(** With two candidates or more the splits are those of level [d], where
    [2^d] is [nextPowerOfTwo] of their number. *)
Lemma routingAlgo_many (a : Assignment) (cands : list string) :
  (2 <= length cands)%nat ->
  exists d : nat,
    (1 <= d)%nat /\
    nextPowerOfTwo (Z.of_nat (length cands)) = 2 ^ Z.of_nat d /\
    routingAlgo a cands =
      Some (withSlices a (wrap64 (Version a + 1))
              (roundRobin (sortStrings cands) 0
                 (sortBy splitLess (level d))),
            sortStrings cands).
Proof.
  intros Hlen. unfold routingAlgo.
  pose proof (sortStrings_length cands) as Hsl.
  destruct (nextPowerOfTwo_spec (Z.of_nat (length cands)) ltac:(lia))
    as (d & Hd & Hnp & _ & _).
  exists d. split; [done|]. split; [done|].
  destruct (sortStrings cands) as [|x [|y l]] eqn:Es;
    [simpl in Hsl; lia | simpl in Hsl; lia |].
  rewrite Hsl, Hnp.
  change [(0, MaxUint64)] with (level 0).
  rewrite splitLoop_levels; [done|lia|].
  rewrite <- pow2_nat_Z, Nat2Z.id. lia.
Qed.

(** [routingAlgo] always returns: it bumps the version, keeps the other
    fields of the assignment and leaves the candidates sorted. *)
Lemma routingAlgo_total (a : Assignment) (cands : list string) :
  exists slices,
    routingAlgo a cands =
      Some (withSlices a (wrap64 (Version a + 1)) slices, sortStrings cands).
Proof.
  destruct (le_lt_dec 2 (length cands)) as [Hl|Hl].
  - destruct (routingAlgo_many a cands Hl) as (d & _ & _ & ->). eauto.
  - unfold routingAlgo. pose proof (sortStrings_length cands) as Hsl.
    destruct (sortStrings cands) as [|x [|y l]]; [eauto|eauto|].
    simpl in Hsl. lia.
Qed.

(** ** The midpoints of the bisection *)

Lemma midPoint_halfWidth (c : Z * Z) :
  midPoint c = wrap64 (c.1 + halfWidth (wrap64 (c.2 - c.1))).
Proof. reflexivity. Qed.

Lemma widthOKb_spec (m w : Z) : widthOKb m w = true <-> widthOK m w.
Proof. unfold widthOKb, widthOK. rewrite orb_true_iff, !Z.eqb_eq. done. Qed.

(** The rounding of [float64] is harmless at every depth: checked by
    evaluation for the widths [2^m] and [2^m - 1], [2 <= m <= 64]. *)
Lemma halfCheck_all : forallb halfCheck (seq 2 63) = true.
Proof. vm_compute. reflexivity. Qed.

Lemma halfWidth_ok (m w : Z) :
  2 <= m <= 64 -> widthOK m w ->
  widthOK (m - 1) (halfWidth w) /\ widthOK (m - 1) (w - halfWidth w).
Proof.
  intros Hm Hw.
  pose proof halfCheck_all as Hall. rewrite forallb_forall in Hall.
  specialize (Hall (Z.to_nat m)).
  assert (Hin : In (Z.to_nat m) (seq 2 63)) by (apply in_seq; lia).
  apply Hall in Hin. unfold halfCheck in Hin.
  rewrite Z2Nat.id in Hin by lia.
  apply andb_true_iff in Hin as [H1 H2].
  unfold halvesOK in H1, H2.
  apply andb_true_iff in H1 as [H1a H1b], H2 as [H2a H2b].
  rewrite widthOKb_spec in H1a, H1b, H2a, H2b.
  destruct Hw as [-> | ->]; done.
Qed.

(** ** The levels are chains of intervals from 0 to [MaxUint64] *)

Lemma chain_le (lo hi : Z) (l : list (Z * Z)) : chain lo l hi -> lo <= hi.
Proof.
  revert lo. induction l as [|c l IH]; simpl; intros lo H; [lia|].
  destruct H as (<- & Hlt & Hc). apply IH in Hc. lia.
Qed.

Lemma chain_bounds (lo hi : Z) (l : list (Z * Z)) :
  chain lo l hi -> Forall (fun c => lo <= c.1 /\ c.2 <= hi) l.
Proof.
  revert lo. induction l as [|c l IH]; simpl; intros lo H; [constructor|].
  destruct H as (<- & Hlt & Hc). constructor.
  - apply chain_le in Hc. lia.
  - apply IH in Hc. eapply Forall_impl; [exact Hc|]. simpl. lia.
Qed.

Lemma chain_splitAll (lo hi : Z) (l : list (Z * Z)) :
  chain lo l hi ->
  Forall (fun c => c.1 < midPoint c < c.2) l ->
  chain lo (splitAll l) hi.
Proof.
  revert lo. induction l as [|c l IH]; simpl; intros lo H Hm; [done|].
  destruct H as (<- & Hlt & Hc). inversion Hm as [|? ? Hc1 Hl]; subst.
  repeat split; try lia. by apply IH.
Qed.

Lemma midPoint_width (m : Z) (c : Z * Z) :
  2 <= m <= 64 -> 0 <= c.1 -> c.2 <= MaxUint64 ->
  widthOK m (c.2 - c.1) ->
  c.1 < midPoint c < c.2 /\
  widthOK (m - 1) (midPoint c - c.1) /\ widthOK (m - 1) (c.2 - midPoint c).
Proof.
  intros Hm Hlo Hhi Hw.
  assert (Hpos : 2 <= 2 ^ (m - 1)).
  { change 2 with (2 ^ 1) at 1. apply Z.pow_le_mono_r; lia. }
  assert (Hw0 : 0 < c.2 - c.1).
  { assert (2 ^ m = 2 * 2 ^ (m - 1)) as He.
    { rewrite <- Z.pow_succ_r by lia. f_equal. lia. }
    destruct Hw as [Hw | Hw]; rewrite Hw, He; lia. }
  unfold MaxUint64 in Hhi.
  rewrite midPoint_halfWidth.
  assert (Hwrap : wrap64 (c.2 - c.1) = c.2 - c.1).
  { unfold wrap64, uint64_mod. apply Z.mod_small. lia. }
  rewrite Hwrap.
  destruct (halfWidth_ok m (c.2 - c.1) Hm Hw) as [Hh1 Hh2].
  set (h := halfWidth (c.2 - c.1)) in *.
  assert (Hrange : 0 < h /\ h < c.2 - c.1).
  { destruct Hh1 as [Hh1 | Hh1], Hh2 as [Hh2 | Hh2]; lia. }
  assert (wrap64 (c.1 + h) = c.1 + h) as ->.
  { unfold wrap64, uint64_mod. apply Z.mod_small. lia. }
  split; [lia|]. split.
  - replace (c.1 + h - c.1) with h by lia. done.
  - replace (c.2 - (c.1 + h)) with (c.2 - c.1 - h) by lia. done.
Qed.

Lemma splitAll_widths (m lo hi : Z) (l : list (Z * Z)) :
  2 <= m <= 64 -> 0 <= lo -> hi <= MaxUint64 ->
  chain lo l hi ->
  Forall (fun c => widthOK m (c.2 - c.1)) l ->
  chain lo (splitAll l) hi /\
  Forall (fun c => widthOK (m - 1) (c.2 - c.1)) (splitAll l).
Proof.
  intros Hm Hlo Hhi Hc Hw.
  pose proof (chain_bounds _ _ _ Hc) as Hb.
  assert (Hall : Forall (fun c =>
            c.1 < midPoint c < c.2 /\
            widthOK (m - 1) (midPoint c - c.1) /\
            widthOK (m - 1) (c.2 - midPoint c)) l).
  { rewrite Forall_forall in *. intros c Hin.
    destruct (Hb c Hin). apply (midPoint_width m); auto; lia. }
  split.
  - apply chain_splitAll; [done|].
    eapply Forall_impl; [exact Hall|]. simpl. tauto.
  - clear -Hall. induction Hall as [|c l (_ & H1 & H2) _ IH]; simpl.
    + constructor.
    + constructor; [done|]. constructor; done.
Qed.

(** Down to depth 63 every level is a chain over the whole key space. *)
Lemma level_chain (k : nat) :
  (k <= 63)%nat ->
  chain 0 (level k) MaxUint64 /\
  Forall (fun c => widthOK (64 - Z.of_nat k) (c.2 - c.1)) (level k).
Proof.
  induction k as [|k IH]; intros Hk.
  - simpl. split; [done|]. constructor; [|constructor].
    right. reflexivity.
  - destruct IH as [Hc Hw]; [lia|]. cbn [level].
    replace (64 - Z.of_nat (S k)) with (64 - Z.of_nat k - 1) by lia.
    apply (splitAll_widths _ 0 MaxUint64); try done; lia.
Qed.

(** A chain is strictly increasing in its start keys, so [sort.Slice]
    leaves it as it is. *)
Lemma chain_sorted (lo hi : Z) (l : list (Z * Z)) :
  chain lo l hi -> Sorted (fun x y => splitLess y x = false) l.
Proof.
  revert lo. induction l as [|c l IH]; simpl; intros lo H; [constructor|].
  destruct H as (<- & Hlt & Hc). constructor; [by eapply IH|].
  destruct l as [|c' l]; constructor.
  simpl in Hc. destruct Hc as (Hc' & _).
  unfold splitLess. apply Z.leb_gt. lia.
Qed.

Lemma sortBy_fixed {A : Type} (less : A -> A -> bool) (l : list A) :
  Sorted (fun x y => less y x = false) l -> sortBy less l = l.
Proof.
  induction 1 as [|x l Hs IH Hhd]; simpl; [done|].
  rewrite IH. destruct Hhd as [|y l' Hxy]; simpl; [done|].
  by rewrite Hxy.
Qed.

Lemma chain_starts (lo hi : Z) (l : list (Z * Z)) :
  chain lo l hi ->
  StronglySorted Z.lt (l.*1) /\ Forall (fun x => lo <= x < hi) (l.*1).
Proof.
  revert lo. induction l as [|c l IH]; simpl; intros lo H.
  - split; constructor.
  - destruct H as (<- & Hlt & Hc).
    pose proof (chain_le _ _ _ Hc) as Hle.
    destruct (IH _ Hc) as [Hs Hf]. split.
    + constructor; [done|]. eapply Forall_impl; [exact Hf|]. simpl. lia.
    + constructor; [lia|]. eapply Forall_impl; [exact Hf|]. simpl. lia.
Qed.

(** ** Round robin *)

Lemma roundRobin_starts (cands : list string) (r : nat) (splits : list (Z * Z)) :
  Start <$> roundRobin cands r splits = splits.*1.
Proof.
  revert r. induction splits as [|s splits IH]; intros r; simpl; [done|].
  by rewrite IH.
Qed.

Lemma roundRobin_length (cands : list string) (r : nat)
    (splits : list (Z * Z)) :
  length (roundRobin cands r splits) = length splits.
Proof.
  revert r. induction splits as [|s splits IH]; intros r; simpl; [done|].
  by rewrite IH.
Qed.

(** ** Coverage of the key space *)

Lemma covers_S (s : Assignment_Slice) (slices : list Assignment_Slice)
    (i : nat) (key : Z) :
  covers (s :: slices) (S i) key <-> covers slices i key.
Proof. reflexivity. Qed.

Lemma covers_lower (slices : list Assignment_Slice) (i : nat) (key lo : Z) :
  Forall (fun x => lo <= x) (Start <$> slices) ->
  covers slices i key -> lo <= key.
Proof.
  intros Hf (s & Hs & Hk & _).
  rewrite Forall_forall in Hf.
  assert (lo <= Start s); [|lia].
  apply Hf. apply list_elem_of_fmap.
  exists s. split; [done|]. by eapply list_elem_of_lookup_2.
Qed.

(** Strictly increasing start keys below [2^64] partition [[lo, 2^64)],
    where [lo] is the first start key. *)
Lemma sorted_starts_partition (slices : list Assignment_Slice) (lo : Z) :
  StronglySorted Z.lt (Start <$> slices) ->
  Start <$> head slices = Some lo ->
  Forall (fun x => x < 2 ^ 64) (Start <$> slices) ->
  forall key, lo <= key < 2 ^ 64 ->
    exists i, covers slices i key /\
              forall j, covers slices j key -> j = i.
Proof.
  revert lo. induction slices as [|s slices IH]; intros lo Hs Hh Hf key Hk;
    [done|].
  simpl in Hh. injection Hh as <-.
  rewrite fmap_cons in Hs, Hf.
  apply StronglySorted_inv in Hs as [Hs Hall].
  inversion Hf as [|? ? Hs64 Hf']; subst.
  destruct slices as [|s' slices].
  - exists 0%nat. split.
    + exists s. unfold sliceEnd. simpl. split; [done|lia].
    + intros [|j] (x & Hx & _); [done|]. done.
  - assert (Hlt : Start s < Start s').
    { inversion Hall; subst. done. }
    destruct (Z_lt_dec key (Start s')) as [Hks|Hks].
    + exists 0%nat. split.
      * exists s. unfold sliceEnd. simpl. split; [done|lia].
      * intros [|j] Hc; [done|]. apply covers_S in Hc.
        assert (Start s' <= key); [|lia].
        apply (covers_lower (s' :: slices) j); [|done].
        rewrite fmap_cons. constructor; [lia|].
        apply StronglySorted_inv in Hs as [_ Hall'].
        eapply Forall_impl; [exact Hall'|]. simpl. lia.
    + destruct (IH (Start s') Hs eq_refl Hf' key ltac:(lia))
        as (i & Hi & Huniq).
      exists (S i). split; [by apply covers_S|].
      intros [|j] Hc.
      * destruct Hc as (x & Hx & Hc). simpl in Hx. injection Hx as <-.
        unfold sliceEnd in Hc. simpl in Hc. lia.
      * f_equal. apply Huniq. by apply covers_S in Hc.
Qed.

(** With at most [maxCandidates] candidates the sort after the loop finds
    the splits already in order. *)
Lemma routingAlgo_bounded (a : Assignment) (cands : list string) :
  (2 <= length cands)%nat -> Z.of_nat (length cands) <= maxCandidates ->
  exists d : nat,
    (1 <= d <= 62)%nat /\
    nextPowerOfTwo (Z.of_nat (length cands)) = 2 ^ Z.of_nat d /\
    routingAlgo a cands =
      Some (withSlices a (wrap64 (Version a + 1))
              (roundRobin (sortStrings cands) 0 (level d)),
            sortStrings cands).
Proof.
  intros Hl Hmax.
  destruct (nextPowerOfTwo_spec (Z.of_nat (length cands)) ltac:(lia))
    as (d' & Hd' & Hnp' & _ & Hlt).
  destruct (routingAlgo_many a cands Hl) as (d & Hd & Hnp & Hr).
  assert (d' = d) as ->.
  { rewrite Hnp in Hnp'. apply Z.pow_inj_r in Hnp'; lia. }
  assert (Hd62 : (d <= 62)%nat).
  { unfold maxCandidates in Hmax.
    assert (2 ^ Z.of_nat d < 2 ^ 63) as Hp.
    { replace (2 ^ 63) with (2 * 2 ^ 62) by done. lia. }
    apply Z.pow_lt_mono_r_iff in Hp; lia. }
  exists d. split; [lia|]. split; [done|].
  rewrite Hr, (sortBy_fixed splitLess (level d)); [done|].
  destruct (level_chain d ltac:(lia)) as [Hc _].
  by eapply chain_sorted.
Qed.

(** ** Routing totality *)

(** C1.  For every non-empty list of candidates (of a length for which
    [numSlices] fits an [int]) [routingAlgo] returns, and the slices of the
    assignment it returns cover the key space [[0, 2^64)] contiguously and
    without overlap: the start keys are strictly increasing, the first one
    is 0, and every key belongs to exactly one slice, where slice [i]
    covers [[start, next_start)] and the last one [[start, 2^64)]. *)
Theorem routingAlgo_covers_key_space
    (a : Assignment) (candidates : list string) :
  candidates <> [] ->
  Z.of_nat (length candidates) <= maxCandidates ->
  exists asg,
    routingAlgo a candidates = Some (asg, sortStrings candidates) /\
    StronglySorted Z.lt (Start <$> Slices asg) /\
    head (Start <$> Slices asg) = Some 0 /\
    forall key, 0 <= key < 2 ^ 64 ->
      exists i, covers (Slices asg) i key /\
                forall j, covers (Slices asg) j key -> j = i.
Proof.
  intros Hne Hmax.
  assert (Hfin : forall asg,
    StronglySorted Z.lt (Start <$> Slices asg) ->
    head (Start <$> Slices asg) = Some 0 ->
    Forall (fun x => x < 2 ^ 64) (Start <$> Slices asg) ->
    StronglySorted Z.lt (Start <$> Slices asg) /\
    head (Start <$> Slices asg) = Some 0 /\
    forall key, 0 <= key < 2 ^ 64 ->
      exists i, covers (Slices asg) i key /\
                forall j, covers (Slices asg) j key -> j = i).
  { intros asg Hs Hh Hf. split; [done|]. split; [done|].
    apply sorted_starts_partition; [done| |done].
    destruct (Slices asg); simpl in *; [done|]. done. }
  destruct (le_lt_dec 2 (length candidates)) as [Hl|Hl].
  - destruct (routingAlgo_bounded a candidates Hl Hmax)
      as (d & Hd & _ & Hr).
    eexists. split; [exact Hr|]. apply Hfin; simpl;
      rewrite roundRobin_starts;
      destruct (level_chain d ltac:(lia)) as [Hc _];
      destruct (chain_starts _ _ _ Hc) as [Hs Hb].
    + done.
    + pose proof (level_nonempty d) as Hn.
      destruct (level d) as [|c l]; [done|]. simpl in *.
      destruct Hc as (-> & _). done.
    + eapply Forall_impl; [exact Hb|]. simpl. unfold MaxUint64. lia.
  - unfold routingAlgo. pose proof (sortStrings_length candidates) as Hsl.
    destruct (sortStrings candidates) as [|x [|y l]] eqn:Es.
    + destruct candidates; simpl in *; [done|lia].
    + eexists. split; [done|]. apply Hfin; simpl.
      * repeat constructor.
      * done.
      * repeat constructor.
    + simpl in Hsl. lia.
Qed.

Lemma routingAlgo_covers_key_space_witness :
  exists asg,
    routingAlgo (mkAssignment [] "app" "dep" "c" 0) ["b"; "a"; "c"]%string
      = Some (asg, sortStrings ["b"; "a"; "c"]%string) /\
    StronglySorted Z.lt (Start <$> Slices asg) /\
    head (Start <$> Slices asg) = Some 0 /\
    forall key, 0 <= key < 2 ^ 64 ->
      exists i, covers (Slices asg) i key /\
                forall j, covers (Slices asg) j key -> j = i.
Proof.
  apply (routingAlgo_covers_key_space
           (mkAssignment [] "app" "dep" "c" 0) ["b"; "a"; "c"]%string).
  - discriminate.
  - vm_compute. discriminate.
Defined.

(** ** Routing load *)








(** ** Two candidates *)

Lemma sortStrings_two (c1 c2 : string) :
  sortStrings [c1; c2] = if (c2 <? c1)%string then [c2; c1] else [c1; c2].
Proof. reflexivity. Qed.

Lemma level_1 : level 1 = [(0, 0x8000000000000000);
                           (0x8000000000000000, MaxUint64)].
Proof. vm_compute. reflexivity. Qed.

(** C4.  For two candidates [routingAlgo] returns two slices with an exact
    boundary: slice 0 starts at key 0 and goes to the lexicographically
    smaller candidate, slice 1 starts at [0x8000000000000000] and goes to
    the larger one. *)
Theorem routingAlgo_two_candidates (a : Assignment) (c1 c2 : string) :
  let lo := if (c2 <? c1)%string then c2 else c1 in
  let hi := if (c2 <? c1)%string then c1 else c2 in
  str_le lo hi /\
  exists asg,
    routingAlgo a [c1; c2] = Some (asg, [lo; hi]) /\
    Slices asg = [mkSlice 0 [lo]; mkSlice 0x8000000000000000 [hi]].
Proof.
  cbn zeta. split.
  - destruct (c2 <? c1)%string eqn:E;
      [by apply ltb_true_le | by apply ltb_false_le].
  - destruct (routingAlgo_many a [c1; c2] ltac:(simpl; lia))
      as (d & Hd & Hnp & Hr).
    change (nextPowerOfTwo (Z.of_nat (length [c1; c2]))) with (2 ^ 1) in Hnp.
    apply Z.pow_inj_r in Hnp; [|lia|lia|lia].
    assert (d = 1%nat) as -> by lia.
    rewrite Hr, level_1, sortStrings_two.
    destruct (c2 <? c1)%string; (eexists; split; [reflexivity|]);
      vm_compute; reflexivity.
Qed.

(** ** Determinism *)



(** ** Group spawn *)

(** A fully spawned group is left alone. *)
Lemma startColocationGroup_started (newEnvelope : nat -> option error)
    (b : Babysitter) (g : group) :
  length (envelopes g) = DefaultReplication ->
  startColocationGroup newEnvelope b g = (g, None).
Proof.
  intros H. unfold startColocationGroup. rewrite H.
  by rewrite Nat.eqb_refl.
Qed.

(** When every construction succeeds an empty group gets exactly
    [DefaultReplication] envelopes. *)
Lemma startColocationGroup_all_ok (b : Babysitter) (g : group) :
  envelopes g = [] ->
  exists g', startColocationGroup allOk b g = (g', None) /\
             length (envelopes g') = DefaultReplication.
Proof.
  intros H. unfold startColocationGroup. rewrite H. simpl.
  eexists. split; [reflexivity|]. simpl. by rewrite H.
Qed.

(** C3 (fails on the code).  When the first worker of a spawn is built and
    the second construction fails, [startColocationGroup] returns the error
    and leaves one envelope in the group: a partial spawn.  The guard
    [len(g.envelopes) == DefaultReplication] does not recognise that state,
    so the next call, all of whose constructions succeed, appends two more
    envelopes and the group ends with three. *)
Theorem startColocationGroup_partial_spawn :
  let b := (getGroup "g" (NewBabysitter "app" "dep")).1 in
  let g := (getGroup "g" (NewBabysitter "app" "dep")).2 in
  let r1 := startColocationGroup failSecond b g in
  let r2 := startColocationGroup allOk b r1.1 in
  length (envelopes g) = 0%nat /\
  r1.2 = Some (errorString "cannot start weavelet") /\
  length (envelopes r1.1) = 1%nat /\
  r2.2 = None /\
  length (envelopes r2.1) = 3%nat.
Proof. vm_compute. repeat split; reflexivity. Qed.

(** ** Exported listeners *)

Lemma string_app_empty (s1 s2 : string) :
  (s1 ++ s2)%string = ""%string -> s2 = ""%string.
Proof. destruct s1; simpl; [done|discriminate]. Qed.

(** An error that is [syscall.EADDRINUSE] has a non-empty message. *)
Lemma errorsIs_Error_nonempty (err : error) :
  errorsIs err EADDRINUSE = true -> Error err <> ""%string.
Proof.
  induction err as [op net ad e IH|sc e IH|n|s|pre e IH]; simpl; intros H.
  - intros He. apply string_app_empty in He. discriminate.
  - intros He. apply string_app_empty in He. discriminate.
  - rewrite H. discriminate.
  - discriminate.
  - intros He. apply string_app_empty in He. by apply IH.
Qed.

(** C6.  [ExportListener] for a listener that has no proxy yet.  If the
    bind fails with address-in-use, the call succeeds (nil error), its
    reply carries a non-empty [Error] and the state, hence the proxy table,
    is unchanged.  If the bind fails for another reason, the call returns
    an error, no reply, and the state is unchanged.  If the bind succeeds,
    a proxy record is created for the listener with the bound address and
    the request's backend, and the reply carries that address and an
    empty [Error]. *)
Theorem ExportListener_new_listener
    (req : ExportListenerRequest) (listen : ListenResult) (b : Babysitter) :
  proxies b !! elr_Listener_Name req = None ->
  match listen with
  | ListenErr err =>
      if errorsIs err EADDRINUSE then
        exists reply,
          ExportListener req listen b = (b, Some reply, None) /\
          reply_Error reply <> ""%string
      else
        exists e, ExportListener req listen b = (b, None, Some e)
  | ListenOk a =>
      exists b',
        ExportListener req listen b =
          (b', Some (mkExportListenerReply a ""), None) /\
        proxies b' !! elr_Listener_Name req =
          Some (mkProxyInfo (elr_Listener_Name req)
                  [elr_Listener_Addr req] a) /\
        groups b' = groups b
  end.
Proof.
  intros Hnone. unfold ExportListener. rewrite Hnone.
  destruct listen as [a|err].
  - eexists. split; [reflexivity|]. split; [|reflexivity].
    simpl. apply lookup_insert_eq.
  - destruct (errorsIs err EADDRINUSE) eqn:He.
    + eexists. split; [reflexivity|]. simpl.
      by apply errorsIs_Error_nonempty.
    + eexists. reflexivity.
Qed.

Lemma ExportListener_new_listener_witness :
  exists reply,
    ExportListener (mkExportListenerRequest "L" "10.0.0.1:9000"
                      "127.0.0.1:55000")
      (ListenErr (addrInUse "127.0.0.1:55000"))
      (NewBabysitter "app" "dep")
    = (NewBabysitter "app" "dep", Some reply, None) /\
    reply_Error reply <> ""%string.
Proof.
  apply (ExportListener_new_listener
           (mkExportListenerRequest "L" "10.0.0.1:9000" "127.0.0.1:55000")
           (ListenErr (addrInUse "127.0.0.1:55000"))
           (NewBabysitter "app" "dep")).
  reflexivity.
Defined.

(** ** StartComponent *)

Lemma spawnLoop_frame (newEnvelope : nat -> option error) (b : Babysitter)
    (n r : nat) (g : group) :
  let g' := (spawnLoop newEnvelope b n r g).1 in
  name g' = name g /\ components g' = components g /\
  routing g' = routing g /\ pids g' = pids g.
Proof.
  revert r g. induction n as [|n IH]; intros r g; simpl; [done|].
  destruct (newEnvelope r); simpl; [done|].
  destruct (IH (S r) (setEnvelopes g
              (envelopes g ++ [mkWeaveletInfo (dep_App b) (dep_Id b) (name g) true])))
    as (H1 & H2 & H3 & H4).
  simpl in *. done.
Qed.

(** Spawning touches the envelopes of the group only. *)
Lemma startColocationGroup_frame (newEnvelope : nat -> option error)
    (b : Babysitter) (g : group) :
  let g' := (startColocationGroup newEnvelope b g).1 in
  name g' = name g /\ components g' = components g /\
  routing g' = routing g /\ pids g' = pids g.
Proof.
  unfold startColocationGroup.
  destruct (length (envelopes g) =? DefaultReplication)%nat; [done|].
  apply spawnLoop_frame.
Qed.

Lemma getGroup_lookup (nm : string) (b : Babysitter) :
  groups (getGroup nm b).1 !! nm = Some (getGroup nm b).2.
Proof.
  unfold getGroup. destruct (groups b !! nm) eqn:E; simpl; [done|].
  apply lookup_insert_eq.
Qed.

Lemma getGroup_present (nm : string) (b : Babysitter) (g : group) :
  groups b !! nm = Some g -> getGroup nm b = (b, g).
Proof. intros H. unfold getGroup. by rewrite H. Qed.

(** A component that is marked started makes [StartComponent] a no-op,
    whatever the environment would answer. *)
Lemma StartComponent_started (req : ComponentToStart)
    (newEnvelope : nat -> option error) (b : Babysitter) (g : group) :
  groups b !! cts_ColocationGroup req = Some g ->
  isStarted (components g) (cts_Component req) = true ->
  StartComponent req newEnvelope b = Some (b, None).
Proof.
  intros Hg Hs. unfold StartComponent.
  rewrite (getGroup_present _ _ _ Hg), Hs. done.
Qed.

(** C10.  [StartComponent] marks the component before it tries to spawn
    the group and does not take the mark back: if the call returns an
    error, the component is recorded as started in the state it leaves, and
    a repeated [StartComponent] for it returns nil without changing
    anything, so without attempting the spawn again, whatever the
    environment would now answer. *)
Theorem StartComponent_failed_spawn_stays_marked
    (req : ComponentToStart) (newEnvelope : nat -> option error)
    (b b' : Babysitter) (err : error) :
  StartComponent req newEnvelope b = Some (b', Some err) ->
  (exists g, groups b' !! cts_ColocationGroup req = Some g /\
             isStarted (components g) (cts_Component req) = true) /\
  forall newEnvelope',
    StartComponent req newEnvelope' b' = Some (b', None).
Proof.
  intros H. unfold StartComponent in H.
  destruct (getGroup (cts_ColocationGroup req) b) as [b1 g] eqn:Eg.
  destruct (isStarted (components g) (cts_Component req)) eqn:Es;
    [congruence|].
  set (g1 := setComponents g (<[cts_Component req:=true]> (components g)))
    in H.
  destruct (if cts_IsRouted req then _ else Some g1) as [g2|] eqn:Er;
    [|done].
  simpl in H.
  destruct (startColocationGroup newEnvelope b1 g2) as [g3 e] eqn:Esp.
  injection H as <- ->.
  assert (Hc2 : components g2 = components g1).
  { destruct (cts_IsRouted req).
    - destruct (routingAlgo _ _) as [[asg reps]|]; simpl in Er; [|done].
      by injection Er as <-.
    - by injection Er as <-. }
  pose proof (startColocationGroup_frame newEnvelope b1 g2) as Hf.
  rewrite Esp in Hf. cbn zeta in Hf. simpl in Hf.
  destruct Hf as (_ & Hc3 & _ & _).
  assert (Hmark : isStarted (components g3) (cts_Component req) = true).
  { rewrite Hc3, Hc2. unfold g1, isStarted. simpl.
    by rewrite lookup_insert_eq. }
  assert (Hlk : groups (storeGroup (cts_ColocationGroup req) g3 b1)
                  !! cts_ColocationGroup req = Some g3).
  { simpl. apply lookup_insert_eq. }
  split.
  - exists g3. done.
  - intros o. by eapply StartComponent_started.
Qed.

Lemma StartComponent_failed_spawn_stays_marked_witness :
  (exists g,
     groups (storeGroup "g"
               (mkGroup "g" {["c" := true]} (mkRoutingInfo [] []) [] [])
               (NewBabysitter "app" "dep")) !! "g"%string = Some g /\
     isStarted (components g) "c" = true) /\
  forall newEnvelope',
    StartComponent (mkComponentToStart "g" "c" false) newEnvelope'
      (storeGroup "g"
         (mkGroup "g" {["c" := true]} (mkRoutingInfo [] []) [] [])
         (NewBabysitter "app" "dep"))
    = Some (storeGroup "g"
              (mkGroup "g" {["c" := true]} (mkRoutingInfo [] []) [] [])
              (NewBabysitter "app" "dep"), None).
Proof.
  apply (StartComponent_failed_spawn_stays_marked
           (mkComponentToStart "g" "c" false) failFirst
           (NewBabysitter "app" "dep") _
           (errorString "cannot start weavelet")).
  vm_compute. reflexivity.
Defined.

(** ** RegisterReplica *)

Lemma existsb_eqb_elem (a : string) (l : list string) :
  existsb (String.eqb a) l = true <-> a ∈ l.
Proof.
  rewrite existsb_exists. split.
  - intros (x & Hin & He). apply String.eqb_eq in He as <-.
    by apply list_elem_of_In.
  - intros Hin. exists a. split; [by apply list_elem_of_In|].
    apply String.eqb_refl.
Qed.

(** The re-assignment loop always returns; it keeps the number and the
    components of the assignments, and leaves the replicas sorted as soon
    as there is one assignment. *)
Lemma reassign_spec (asgs : list Assignment) (reps : list string) :
  exists asgs',
    reassign asgs reps =
      Some (asgs', match asgs with [] => reps | _ => sortStrings reps end) /\
    Component <$> asgs' = Component <$> asgs.
Proof.
  revert reps. induction asgs as [|a rest IH]; intros reps; simpl.
  - by exists [].
  - destruct (routingAlgo_total a reps) as (slices & ->). simpl.
    destruct (IH (sortStrings reps)) as (rest' & -> & Hc). simpl.
    eexists. split.
    + destruct rest; [done|]. by rewrite sortStrings_idem.
    + rewrite !fmap_cons. simpl. by rewrite Hc.
Qed.



(** ** Sequences of callbacks *)

Lemma count_component_fmap (c : string) (l : list Assignment) :
  length (filter (fun a => Component a = c) l) =
  length (filter (fun x => x = c) (Component <$> l)).
Proof.
  induction l as [|a l IH]; [done|].
  rewrite fmap_cons, !filter_cons.
  destruct (decide (Component a = c)); simpl; by rewrite IH.
Qed.

Lemma getGroup_view (nm : string) (b : Babysitter) :
  let b1 := (getGroup nm b).1 in
  let g := (getGroup nm b).2 in
  groups b1 !! nm = Some g /\
  dep_App b1 = dep_App b /\ dep_Id b1 = dep_Id b /\
  (forall grp c, startedIn b1 grp c = startedIn b grp c) /\
  (forall grp, assignmentsOf b1 grp = assignmentsOf b grp).
Proof.
  cbn zeta. split; [apply getGroup_lookup|].
  unfold getGroup. destruct (groups b !! nm) eqn:E; simpl; [done|].
  split; [done|]. split; [done|]. split.
  - intros grp c. unfold startedIn. simpl.
    destruct (decide (nm = grp)) as [<-|Hne].
    + by rewrite lookup_insert_eq, E.
    + by rewrite lookup_insert_ne.
  - intros grp. unfold assignmentsOf. simpl.
    destruct (decide (nm = grp)) as [<-|Hne].
    + by rewrite lookup_insert_eq, E.
    + by rewrite lookup_insert_ne.
Qed.

Lemma startedIn_storeGroup (nm : string) (g : group) (b : Babysitter)
    (grp c : string) :
  startedIn (storeGroup nm g b) grp c =
    if decide (grp = nm) then isStarted (components g) c
    else startedIn b grp c.
Proof.
  unfold startedIn, storeGroup. simpl.
  destruct (decide (grp = nm)) as [->|Hne].
  - by rewrite lookup_insert_eq.
  - by rewrite lookup_insert_ne.
Qed.

Lemma assignmentsOf_storeGroup (nm : string) (g : group) (b : Babysitter)
    (grp : string) :
  assignmentsOf (storeGroup nm g b) grp =
    if decide (grp = nm) then ri_Assignments (routing g)
    else assignmentsOf b grp.
Proof.
  unfold assignmentsOf, storeGroup. simpl.
  destruct (decide (grp = nm)) as [->|Hne].
  - by rewrite lookup_insert_eq.
  - by rewrite lookup_insert_ne.
Qed.

(** What [StartComponent] does to the started components and to the
    assignments: it always returns, marks the component, and appends one
    assignment exactly when the component was not marked and is routed. *)
Lemma StartComponent_step (req : ComponentToStart)
    (newEnvelope : nat -> option error) (b : Babysitter) :
  exists b' e,
    StartComponent req newEnvelope b = Some (b', e) /\
    (forall grp c,
        startedIn b' grp c =
          if decide (grp = cts_ColocationGroup req /\ c = cts_Component req)
          then true else startedIn b grp c) /\
    (forall grp,
        Component <$> assignmentsOf b' grp =
          (Component <$> assignmentsOf b grp) ++
          if decide (grp = cts_ColocationGroup req) then
            if startedIn b (cts_ColocationGroup req) (cts_Component req)
            then []
            else if cts_IsRouted req then [cts_Component req] else []
          else []).
Proof.
  unfold StartComponent.
  destruct (getGroup_view (cts_ColocationGroup req) b)
    as (Hlk & Happ & Hid & Hst & Has).
  destruct (getGroup (cts_ColocationGroup req) b) as [b1 g]. simpl in *.
  assert (Hsg : startedIn b (cts_ColocationGroup req) (cts_Component req)
                = isStarted (components g) (cts_Component req)).
  { rewrite <- Hst. unfold startedIn. by rewrite Hlk. }
  assert (Hag : assignmentsOf b (cts_ColocationGroup req)
                = ri_Assignments (routing g)).
  { rewrite <- Has. unfold assignmentsOf. by rewrite Hlk. }
  rewrite Hsg.
  destruct (isStarted (components g) (cts_Component req)) eqn:Es.
  - exists b1, None. split; [done|]. split.
    + intros grp c. rewrite Hst. case_decide as Hd; [|done].
      destruct Hd as [-> ->]. by rewrite Hsg.
    + intros grp. rewrite Has. case_decide; by rewrite app_nil_r.
  - set (g1 := setComponents g
                 (<[cts_Component req:=true]> (components g))).
    assert (Hg2 : exists g2,
      (if cts_IsRouted req
       then
         routingAlgo
           (mkAssignment [] (dep_App b1) (dep_Id b1) (cts_Component req) 0)
           (ri_Replicas (routing g)) ≫=
         (fun '(assignment, replicas) =>
            Some (setRouting g1
                    (mkRoutingInfo replicas
                       (ri_Assignments (routing g) ++ [assignment]))))
       else Some g1) = Some g2 /\
      components g2 = components g1 /\
      Component <$> ri_Assignments (routing g2) =
        (Component <$> ri_Assignments (routing g)) ++
        if cts_IsRouted req then [cts_Component req] else []).
    { destruct (cts_IsRouted req).
      - destruct (routingAlgo_total
                    (mkAssignment [] (dep_App b1) (dep_Id b1)
                       (cts_Component req) 0)
                    (ri_Replicas (routing g))) as (slices & ->).
        simpl. eexists. split; [reflexivity|]. split; [done|].
        simpl. by rewrite fmap_app.
      - exists g1. split; [done|]. split; [done|].
        simpl. by rewrite app_nil_r. }
    destruct Hg2 as (g2 & -> & Hc2 & Ha2). simpl.
    pose proof (startColocationGroup_frame newEnvelope b1 g2) as Hf.
    destruct (startColocationGroup newEnvelope b1 g2) as [g3 e].
    cbn zeta in Hf. simpl in Hf. destruct Hf as (_ & Hc3 & Hr3 & _).
    eexists _, _. split; [reflexivity|]. split.
    + intros grp c. rewrite startedIn_storeGroup, Hst, Hc3, Hc2.
      unfold g1. simpl.
      destruct (decide (grp = cts_ColocationGroup req)) as [->|Hne].
      * unfold isStarted.
        destruct (decide (c = cts_Component req)) as [->|Hnc].
        -- rewrite lookup_insert_eq. simpl. by rewrite decide_True.
        -- rewrite lookup_insert_ne by done.
           rewrite decide_False by tauto.
           rewrite <- Hst. unfold startedIn. by rewrite Hlk.
      * by rewrite decide_False by tauto.
    + intros grp. rewrite assignmentsOf_storeGroup, Has, Hr3.
      destruct (decide (grp = cts_ColocationGroup req)) as [->|Hne].
      * by rewrite Ha2, Hag.
      * by rewrite app_nil_r.
Qed.

(** [RegisterReplica] always returns nil; it leaves the started components
    alone and replaces the assignments one for one, component by
    component. *)
Lemma RegisterReplica_step (req : ReplicaToRegister) (b : Babysitter) :
  exists b',
    RegisterReplica req b = Some (b', None) /\
    (forall grp c, startedIn b' grp c = startedIn b grp c) /\
    (forall grp,
        Component <$> assignmentsOf b' grp =
        Component <$> assignmentsOf b grp).
Proof.
  unfold RegisterReplica.
  destruct (getGroup_view (rtr_Group req) b)
    as (Hlk & _ & _ & Hst & Has).
  destruct (getGroup (rtr_Group req) b) as [b1 g]. simpl in *.
  destruct (existsb _ _).
  - exists b1. split; [done|]. split; [done|].
    intros grp. by rewrite Has.
  - destruct (reassign_spec (ri_Assignments (routing g))
                (ri_Replicas (routing g) ++ [rtr_Address req]))
      as (asgs' & -> & Hc).
    simpl. eexists. split; [reflexivity|]. split.
    + intros grp c. rewrite startedIn_storeGroup. simpl.
      case_decide as Hd; [|done]. subst grp.
      rewrite <- Hst. unfold startedIn. by rewrite Hlk.
    + intros grp. rewrite assignmentsOf_storeGroup. simpl.
      case_decide as Hd; [|by rewrite Has]. subst grp.
      rewrite Hc, <- Has. unfold assignmentsOf. by rewrite Hlk.
Qed.

Lemma markedBy_app (cs1 cs2 : list call) (grp c : string) :
  markedBy (cs1 ++ cs2) grp c =
    match markedBy cs1 grp c with
    | Some r => Some r
    | None => markedBy cs2 grp c
    end.
Proof.
  induction cs1 as [|[req o|req] cs1 IH]; simpl; [done| |done].
  by destruct (bool_decide _).
Qed.

Lemma run_snoc (cs : list call) (c : call) (b : Babysitter) :
  run (cs ++ [c]) b = run cs b ≫= step c.
Proof. unfold run. by rewrite foldl_app. Qed.

(** The invariant of a run from the initial state: a component is marked
    started exactly when some [StartComponent] named it, and it has one
    assignment if the call that marked it was routed, none otherwise. *)
Lemma run_invariant (app dep : string) (cs : list call) :
  exists b,
    run cs (NewBabysitter app dep) = Some b /\
    forall grp c,
      (startedIn b grp c = true <-> is_Some (markedBy cs grp c)) /\
      assignmentsFor b grp c =
        if markedBy cs grp c is Some true then 1%nat else 0%nat.
Proof.
  induction cs as [|x cs IH] using rev_ind.
  - eexists. split; [reflexivity|]. intros grp c. split; [|done].
    unfold startedIn. simpl. rewrite lookup_empty.
    split; [done|]. by intros [? ?].
  - destruct IH as (b & Hrun & Hinv).
    rewrite run_snoc, Hrun. simpl.
    destruct x as [req o|req]; simpl.
    + destruct (StartComponent_step req o b) as (b' & e & -> & Hst & Has).
      simpl. exists b'. split; [done|]. intros grp c.
      destruct (Hinv grp c) as [Hi1 Hi2].
      rewrite markedBy_app. simpl.
      unfold assignmentsFor in *.
      rewrite count_component_fmap, Has, filter_app, length_app,
        <- count_component_fmap, Hi2, Hst.
      destruct (decide (grp = cts_ColocationGroup req /\
                        c = cts_Component req)) as [[-> ->]|Hne].
      * rewrite bool_decide_eq_true_2 by done.
        rewrite decide_True by done.
        destruct (startedIn b (cts_ColocationGroup req) (cts_Component req))
          eqn:Es.
        -- destruct (proj1 Hi1 eq_refl) as [r Hr]. rewrite Hr.
           split; [done|]. simpl. lia.
        -- destruct (markedBy cs (cts_ColocationGroup req)
                       (cts_Component req)) as [r|] eqn:Hm.
           { assert (false = true) by (apply Hi1; eauto). done. }
           split; [done|].
           destruct (cts_IsRouted req); simpl; [|done].
           rewrite filter_cons, decide_True by done. done.
      * rewrite bool_decide_eq_false_2 by (intros [<- <-]; tauto).
        assert (Hextra : length (filter (fun x => x = c)
                  (if decide (grp = cts_ColocationGroup req)
                   then if startedIn b (cts_ColocationGroup req)
                             (cts_Component req)
                        then []
                        else if cts_IsRouted req
                             then [cts_Component req] else []
                   else [])) = 0%nat).
        { destruct (decide (grp = cts_ColocationGroup req)) as [->|];
            [|done].
          destruct (startedIn _ _ _); [done|].
          destruct (cts_IsRouted req); [|done].
          rewrite filter_cons, decide_False; [done|].
          intros Heq. apply Hne. done. }
        rewrite Hextra, Nat.add_0_r.
        destruct (markedBy cs grp c); done.
    + destruct (RegisterReplica_step req b) as (b' & -> & Hst & Has).
      simpl. exists b'. split; [done|]. intros grp c.
      destruct (Hinv grp c) as [Hi1 Hi2].
      rewrite markedBy_app. simpl.
      unfold assignmentsFor in *.
      rewrite count_component_fmap, Has, <- count_component_fmap, Hi2, Hst.
      destruct (markedBy cs grp c); done.
Qed.

(** C5.  After every sequence of [StartComponent] and [RegisterReplica]
    calls, in every group, a component is marked started exactly when a
    [StartComponent] named it, and a component that was marked started by
    a call with [is_routed = true] has exactly one entry in the group's
    routing assignments whose component field is that component (a
    component marked by an unrouted call, or not started, has none).  In
    particular a repeated [StartComponent] for a started component changes
    nothing, neither the components nor the assignments, and
    [RegisterReplica] replaces the assignments in place: same number, same
    components, in the same order. *)
Theorem routed_component_has_one_assignment
    (app dep : string) (cs : list call) :
  exists b,
    run cs (NewBabysitter app dep) = Some b /\
    (forall grp c,
        (startedIn b grp c = true <-> is_Some (markedBy cs grp c)) /\
        (markedBy cs grp c = Some true -> assignmentsFor b grp c = 1%nat) /\
        (markedBy cs grp c <> Some true -> assignmentsFor b grp c = 0%nat)) /\
    (forall req newEnvelope,
        startedIn b (cts_ColocationGroup req) (cts_Component req) = true ->
        StartComponent req newEnvelope b = Some (b, None)) /\
    (forall req, exists b',
        RegisterReplica req b = Some (b', None) /\
        forall grp,
          length (assignmentsOf b' grp) = length (assignmentsOf b grp) /\
          Component <$> assignmentsOf b' grp =
          Component <$> assignmentsOf b grp).
Proof.
  destruct (run_invariant app dep cs) as (b & Hrun & Hinv).
  exists b. split; [done|]. split; [|split].
  - intros grp c. destruct (Hinv grp c) as [H1 H2].
    split; [done|]. rewrite H2. split.
    + by intros ->.
    + intros Hne. destruct (markedBy cs grp c) as [[|]|]; done.
  - intros req o Hs. unfold startedIn in Hs.
    destruct (groups b !! cts_ColocationGroup req) as [g|] eqn:Hg; [|done].
    by eapply StartComponent_started.
  - intros req.
    destruct (RegisterReplica_step req b) as (b' & Hr & _ & Has).
    exists b'. split; [done|]. intros grp. split; [|done].
    rewrite <- (length_fmap Component (assignmentsOf b' grp)), Has.
    apply length_fmap.
Qed.

(** ** Lock order *)

Import Locks.

Lemma lock_eqb_refl (l : lock) : lock_eqb l l = true.
Proof.
  destruct l as [|g|g c]; simpl; rewrite ?String.eqb_refl; [done|done|].
  by destruct c.
Qed.

Lemma ordered_pair (rank : lock -> nat) (l : lock) (tr : list event) :
  ordered rank [] (Acquire l :: Release l :: tr) = ordered rank [] tr.
Proof.
  cbn [ordered forallb andb List.filter].
  by rewrite lock_eqb_refl.
Qed.

Lemma ordered_group_loop (gs : list string) (tr : list event) :
  ordered codeOrder []
    (flat_map (fun g => [Acquire (GroupMu g); Release (GroupMu g)]) gs ++ tr)
  = ordered codeOrder [] tr.
Proof.
  induction gs as [|g gs IH]; [done|].
  cbn [flat_map app]. by rewrite ordered_pair.
Qed.

Lemma ordered_status_loop (gs : list string) (tr : list event) :
  ordered codeOrder []
    (flat_map (fun g => [Acquire (CellLock g Components);
                         Release (CellLock g Components);
                         Acquire (GroupMu g); Release (GroupMu g)]) gs ++ tr)
  = ordered codeOrder [] tr.
Proof.
  induction gs as [|g gs IH]; [done|].
  cbn [flat_map app]. by rewrite !ordered_pair.
Qed.

Lemma readMetrics_ordered (gs : list string) :
  ordered codeOrder [] (readMetrics_locks gs) = true.
Proof.
  unfold readMetrics_locks, supervisor_locks. cbn [app].
  rewrite ordered_pair, <- (app_nil_r (flat_map _ gs)).
  by rewrite ordered_group_loop.
Qed.

Lemma Status_ordered (gs : list string) :
  ordered codeOrder [] (Status_locks gs) = true.
Proof.
  unfold Status_locks, supervisor_locks. cbn [app].
  by rewrite ordered_pair, ordered_status_loop, ordered_pair.
Qed.

(** The nested section of [RegisterReplica]. *)
Lemma RegisterReplica_nested (g : string) :
  ordered codeOrder []
    [Acquire (CellLock g Routing); Acquire (GroupMu g);
     Release (GroupMu g); Release (CellLock g Routing)] = true.
Proof.
  reflexivity.
Qed.

(** C8 as stated fails: under the order of the specification the path of
    [RegisterReplica] that registers a new address is out of order, because
    it takes the group mutex while it holds the lock of the routing
    cell. *)
Lemma RegisterReplica_breaks_spec_order :
  ordered specOrder [] (RegisterReplica_locks "g" false) = false.
Proof. vm_compute. reflexivity. Qed.

(** C8, amended.  Every path of every method acquires its locks in the
    order supervisor mutex, versioned-cell lock, group mutex: a lock is
    only taken while all locks held come earlier in that order.  (The one
    nesting is in [RegisterReplica], which takes the group mutex while
    holding the lock of the routing cell.) *)
Theorem lock_order_cell_before_group (g : string) (gs : list string) :
  forallb (ordered codeOrder []) (methodPaths g gs) = true.
Proof.
  unfold methodPaths. cbn [forallb].
  rewrite readMetrics_ordered, Status_ordered.
  unfold StartComponent_locks, RegisterReplica_locks,
    GetComponentsToStart_locks, GetRoutingInfo_locks,
    startColocationGroup_locks, supervisor_locks.
  cbn [app]. rewrite !ordered_pair.
  rewrite RegisterReplica_nested. reflexivity.
Qed.

(** ** The example state is reachable *)

Lemma oneReplicaState_reached :
  run [CallRegisterReplica (mkReplicaToRegister "g" "b" 100);
       CallStartComponent (mkComponentToStart "g" "c" true) allOk]
      (NewBabysitter "app" "dep")
  = Some oneReplicaState.
Proof. vm_compute. reflexivity. Qed.

(** Registering ["b"] and then ["a"] with a routed component started in
    between leaves the replicas as [["a"; "b"]], which is not the
    registration order. *)
Lemma replicas_not_in_registration_order :
  exists b,
    run [CallRegisterReplica (mkReplicaToRegister "g" "b" 100);
         CallStartComponent (mkComponentToStart "g" "c" true) allOk;
         CallRegisterReplica (mkReplicaToRegister "g" "a" 101)]
        (NewBabysitter "app" "dep") = Some b /\
    ri_Replicas (GetRoutingInfo "g" b).2 = ["a"; "b"]%string.
Proof. eexists. split; vm_compute; reflexivity. Qed.

(** With a repeated candidate the slices of its positions add up: of the
    four slices for [["a"; "a"; "b"]], three have replica ["a"]. *)
Lemma repeated_candidate_slices :
  exists asg cands,
    routingAlgo (mkAssignment [] "app" "dep" "c" 0) ["a"; "a"; "b"]%string
      = Some (asg, cands) /\
    length (Slices asg) = 4%nat /\
    slicesOf "a" (Slices asg) = 3%nat /\
    slicesOf "b" (Slices asg) = 1%nat.
Proof. eexists _, _. split; [vm_compute; reflexivity|]. by vm_compute. Qed.

(** * Further properties of the routing engine *)



(** The splitting loop, entered with the whole key space as its only
    interval, returns exactly when [numSlices] is at least 2, and then with
    [numSlices] intervals; for a smaller [numSlices] its test
    [len(splits) != numSlices] never fails and it runs forever. *)
Theorem splitLoop_returns_iff (numSlices : Z) :
  (2 <= numSlices ->
   exists r,
     splitLoop (Z.to_nat numSlices) numSlices [(0, MaxUint64)] = Some r /\
     Z.of_nat (length r) = numSlices) /\
  (numSlices < 2 ->
   forall fuel, splitLoop fuel numSlices [(0, MaxUint64)] = None).
Proof.
  split.
  - intros HN.
    destruct (splitLoop_fuel_enough (Z.to_nat numSlices) numSlices
                [(0, MaxUint64)]) as (r & Hr & Hlen & _);
      [done|simpl; lia|simpl; lia|].
    eauto.
  - intros HN fuel. apply splitLoop_never. simpl. lia.
Qed.


(** The new slices are computed from the candidates alone: the slices and
    the version of the previous assignment play no part in them. *)
Theorem routingAlgo_slices_from_candidates
    (a1 a2 : Assignment) (candidates : list string) :
  exists asg1 asg2,
    routingAlgo a1 candidates = Some (asg1, sortStrings candidates) /\
    routingAlgo a2 candidates = Some (asg2, sortStrings candidates) /\
    Slices asg1 = Slices asg2.
Proof.
  destruct (routingAlgo_total a1 candidates) as (s1 & H1).
  destruct (routingAlgo_total a2 candidates) as (s2 & H2).
  eexists _, _. split; [exact H1|]. split; [exact H2|]. simpl.
  unfold routingAlgo in H1, H2.
  destruct (sortStrings candidates) as [|x [|y l]].
  - by injection H1 as <-; injection H2 as <-.
  - by injection H1 as <-; injection H2 as <-.
  - destruct (splitLoop _ _ _); [|done].
    by injection H1 as <-; injection H2 as <-.
Qed.



(** In a chain the end of an interval is the start of the next one, and
    the end of the last one is the end of the chain. *)
Lemma chain_next (lo hi : Z) (l : list (Z * Z)) (i : nat) (c : Z * Z) :
  chain lo l hi -> l !! i = Some c ->
  match l.*1 !! S i with
  | Some x => x = c.2
  | None => c.2 = hi
  end.
Proof.
  revert lo i. induction l as [|c0 l IH]; intros lo i Hc Hi; [done|].
  simpl in Hc. destruct Hc as (_ & _ & Hc).
  destruct i as [|i].
  - simpl in Hi. injection Hi as ->.
    destruct l as [|c1 l]; simpl in *; [done|]. by destruct Hc.
  - simpl in Hi. apply (IH _ _ Hc Hi).
Qed.

Lemma roundRobin_start (cands : list string) (r : nat)
    (splits : list (Z * Z)) (i : nat) :
  Start <$> (roundRobin cands r splits !! i) = splits.*1 !! i.
Proof. by rewrite <- list_lookup_fmap, roundRobin_starts. Qed.

(** The key space is shared out approximately equally, as the source
    announces: with [N] slices every slice holds [2^64 / N] keys, give or
    take one. *)
Theorem routingAlgo_slice_sizes (a : Assignment) (candidates : list string) :
  (2 <= length candidates)%nat ->
  Z.of_nat (length candidates) <= maxCandidates ->
  exists asg,
    routingAlgo a candidates = Some (asg, sortStrings candidates) /\
    let W := 2 ^ 64 / Z.of_nat (length (Slices asg)) in
    forall i s, Slices asg !! i = Some s ->
      W - 1 <= sliceEnd (Slices asg) i - Start s <= W + 1.
Proof.
  intros Hl Hmax.
  destruct (routingAlgo_bounded a candidates Hl Hmax) as (d & Hd & _ & ->).
  eexists. split; [reflexivity|]. cbn zeta. simpl Slices.
  rewrite roundRobin_length, level_length, pow2_nat_Z.
  assert (HW : 2 ^ 64 / 2 ^ Z.of_nat d = 2 ^ (64 - Z.of_nat d)).
  { rewrite Z.pow_sub_r by lia. done. }
  rewrite HW. intros i s Hs.
  destruct (level_chain d ltac:(lia)) as [Hc Hw].
  pose proof (roundRobin_start (sortStrings candidates) 0 (level d) i) as Hi.
  rewrite Hs in Hi. simpl in Hi. symmetry in Hi.
  rewrite list_lookup_fmap in Hi.
  destruct (level d !! i) as [c|] eqn:Hci; [|done].
  simpl in Hi. injection Hi as Hstart.
  pose proof (chain_next _ _ _ _ _ Hc Hci) as Hnext.
  rewrite Forall_forall in Hw.
  pose proof (Hw c (list_elem_of_lookup_2 _ _ _ Hci)) as Hwc.
  unfold sliceEnd.
  pose proof (roundRobin_start (sortStrings candidates) 0 (level d) (S i))
    as Hsi.
  destruct (roundRobin (sortStrings candidates) 0 (level d) !! S i)
    as [s'|]; simpl in Hsi; rewrite <- Hsi in Hnext.
  - unfold widthOK in Hwc. lia.
  - unfold widthOK, MaxUint64 in *. lia.
Qed.

Lemma routingAlgo_slice_sizes_witness :
  exists asg,
    routingAlgo (mkAssignment [] "app" "dep" "c" 0) ["b"; "a"; "c"]%string
      = Some (asg, sortStrings ["b"; "a"; "c"]%string) /\
    let W := 2 ^ 64 / Z.of_nat (length (Slices asg)) in
    forall i s, Slices asg !! i = Some s ->
      W - 1 <= sliceEnd (Slices asg) i - Start s <= W + 1.
Proof.
  apply (routingAlgo_slice_sizes
           (mkAssignment [] "app" "dep" "c" 0) ["b"; "a"; "c"]%string).
  - simpl. lia.
  - vm_compute. discriminate.
Defined.

(** Down to depth 11 the rounding of [float64] does not move a
    boundary. *)
Lemma levels_exact : forallb levelExact (seq 1 11) = true.
Proof. vm_compute. reflexivity. Qed.

(** With at most 2048 candidates the boundaries are exact in spite of the
    floating-point midpoint: slice [i] of [N] starts at [i * (2^64 / N)]. *)
Theorem routingAlgo_exact_boundaries
    (a : Assignment) (candidates : list string) :
  (2 <= length candidates <= 2048)%nat ->
  exists asg,
    routingAlgo a candidates = Some (asg, sortStrings candidates) /\
    let W := 2 ^ 64 / Z.of_nat (length (Slices asg)) in
    forall i s, Slices asg !! i = Some s -> Start s = Z.of_nat i * W.
Proof.
  intros [Hl Hu].
  assert (Hmax : Z.of_nat (length candidates) <= maxCandidates).
  { unfold maxCandidates.
    assert (2048 < 2 ^ 62) by done. lia. }
  destruct (routingAlgo_bounded a candidates Hl Hmax) as (d & Hd & Hnp & ->).
  destruct (nextPowerOfTwo_spec (Z.of_nat (length candidates))
              ltac:(lia)) as (d' & _ & Hnp' & _ & Hlt).
  assert (d' = d) as ->.
  { rewrite Hnp in Hnp'. apply Z.pow_inj_r in Hnp'; lia. }
  assert (Hd11 : (d <= 11)%nat).
  { assert (2 ^ Z.of_nat d < 2 ^ 12) as Hp.
    { change (2 ^ 12) with 4096. lia. }
    apply Z.pow_lt_mono_r_iff in Hp; lia. }
  eexists. split; [reflexivity|]. cbn zeta. simpl Slices.
  rewrite roundRobin_length, level_length, pow2_nat_Z.
  assert (HW : 2 ^ 64 / 2 ^ Z.of_nat d = 2 ^ (64 - Z.of_nat d)).
  { rewrite Z.pow_sub_r by lia. done. }
  rewrite HW. intros i s Hs.
  pose proof levels_exact as Hall. rewrite forallb_forall in Hall.
  specialize (Hall d ltac:(apply in_seq; lia)).
  unfold levelExact in Hall. apply bool_decide_eq_true_1 in Hall.
  pose proof (roundRobin_start (sortStrings candidates) 0 (level d) i) as Hi.
  rewrite Hs, Hall in Hi. simpl in Hi.
  rewrite list_lookup_fmap in Hi.
  destruct (seq 0 (2 ^ d) !! i) as [k|] eqn:Hk; [|done].
  apply lookup_seq in Hk as [-> _]. simpl in Hi. by injection Hi.
Qed.

Lemma routingAlgo_exact_boundaries_witness :
  exists asg,
    routingAlgo (mkAssignment [] "app" "dep" "c" 0) ["b"; "a"; "c"]%string
      = Some (asg, sortStrings ["b"; "a"; "c"]%string) /\
    let W := 2 ^ 64 / Z.of_nat (length (Slices asg)) in
    forall i s, Slices asg !! i = Some s -> Start s = Z.of_nat i * W.
Proof.
  apply (routingAlgo_exact_boundaries
           (mkAssignment [] "app" "dep" "c" 0) ["b"; "a"; "c"]%string).
  simpl. lia.
Defined.

(** One level further down a boundary is off by one: the last start key
    of level 12 is [4095 * 2^52 - 1]. *)
Lemma level_12_inexact :
  last (level 12).*1 = Some (4095 * 2 ^ 52 - 1).
Proof. vm_compute. reflexivity. Qed.

(** * Further properties of the supervisor *)

(** ** Spawning a group *)

(** A spawn that returns nil on a group without envelopes leaves exactly
    [DefaultReplication] envelopes, all built for this application,
    deployment and group, and from then on [startColocationGroup] returns
    nil without changing the group, whatever the environment answers. *)
Theorem startColocationGroup_spawn_once
    (newEnvelope : nat -> option error) (b : Babysitter) (g g' : group) :
  envelopes g = [] ->
  startColocationGroup newEnvelope b g = (g', None) ->
  envelopes g' =
    replicate DefaultReplication
      (mkWeaveletInfo (dep_App b) (dep_Id b) (name g) true) /\
  forall newEnvelope' b', startColocationGroup newEnvelope' b' g' = (g', None).
Proof.
  intros He H. unfold startColocationGroup in H. rewrite He in H.
  simpl in H. rewrite !He in H. simpl in H.
  destruct (newEnvelope 0%nat); [done|].
  destruct (newEnvelope 1%nat); [done|].
  injection H as <-. simpl. split; [done|].
  intros o b'. by apply startColocationGroup_started.
Qed.

Lemma startColocationGroup_spawn_once_witness :
  envelopes (startColocationGroup allOk (NewBabysitter "app" "dep")
               (emptyGroup "g")).1 =
    replicate DefaultReplication
      (mkWeaveletInfo (dep_App (NewBabysitter "app" "dep"))
         (dep_Id (NewBabysitter "app" "dep")) (name (emptyGroup "g")) true) /\
  forall newEnvelope' b',
    startColocationGroup newEnvelope' b'
      (startColocationGroup allOk (NewBabysitter "app" "dep")
         (emptyGroup "g")).1
    = ((startColocationGroup allOk (NewBabysitter "app" "dep")
          (emptyGroup "g")).1, None).
Proof.
  apply (startColocationGroup_spawn_once allOk (NewBabysitter "app" "dep")
           (emptyGroup "g")).
  - reflexivity.
  - reflexivity.
Defined.

(** [startColocationGroup] only ever appends envelopes, at most
    [DefaultReplication] of them and fewer when it returns an error; the
    error it returns is the one [envelope.NewEnvelope] gave; it returns nil
    only for a group that was full or that it extended by
    [DefaultReplication]; the name, components, routing info and pids of
    the group are left as they were. *)
Theorem startColocationGroup_only_appends
    (newEnvelope : nat -> option error) (b : Babysitter) (g : group) :
  exists new,
    envelopes (startColocationGroup newEnvelope b g).1 = envelopes g ++ new /\
    (length new <= DefaultReplication)%nat /\
    (forall e, (startColocationGroup newEnvelope b g).2 = Some e ->
       (length new < DefaultReplication)%nat /\
       newEnvelope (length new) = Some e) /\
    ((startColocationGroup newEnvelope b g).2 = None ->
       (length (envelopes g) = DefaultReplication /\ new = []) \/
       length new = DefaultReplication) /\
    name (startColocationGroup newEnvelope b g).1 = name g /\
    components (startColocationGroup newEnvelope b g).1 = components g /\
    routing (startColocationGroup newEnvelope b g).1 = routing g /\
    pids (startColocationGroup newEnvelope b g).1 = pids g.
Proof.
  unfold startColocationGroup, DefaultReplication.
  destruct (Nat.eqb_spec (length (envelopes g)) 2) as [He|Hne].
  - exists []. simpl. rewrite app_nil_r.
    split_and!; try done; try lia; try (intros _; by left).
  - simpl. destruct (newEnvelope 0%nat) as [e0|] eqn:H0.
    + exists []. simpl. rewrite app_nil_r.
      split_and!; try done; try lia;
        try (intros e [= <-]; split; [lia|done]).
    + destruct (newEnvelope 1%nat) as [e1|] eqn:H1.
      * eexists [_]. simpl.
        split_and!; try done; try lia;
          try (intros e [= <-]; split; [lia|done]).
      * eexists [_; _]. simpl. rewrite <- app_assoc.
        split_and!; try done; try lia; try (intros _; by right).
Qed.

(** ** The callbacks as transformations of the group records *)

Lemma getGroup_groupView (nm : string) (b : Babysitter) :
  (getGroup nm b).2 = groupView b nm /\
  groups (getGroup nm b).1 = <[nm := groupView b nm]> (groups b) /\
  proxies (getGroup nm b).1 = proxies b /\
  dep_App (getGroup nm b).1 = dep_App b /\
  dep_Id (getGroup nm b).1 = dep_Id b.
Proof.
  unfold getGroup, groupView.
  destruct (groups b !! nm) as [g|] eqn:E; simpl; [|done].
  split; [done|]. split; [|done]. by rewrite insert_id.
Qed.

Lemma storeGroup_getGroup (nm : string) (g : group) (b : Babysitter) :
  storeGroup nm g (getGroup nm b).1 = storeGroup nm g b.
Proof.
  destruct (getGroup_groupView nm b) as (_ & Hg & Hp & Ha & Hi).
  unfold storeGroup, setGroups. rewrite Hg, Hp, Ha, Hi.
  by rewrite insert_insert_eq.
Qed.

Lemma groupView_storeGroup (nm : string) (g : group) (b : Babysitter)
    (grp : string) :
  groupView (storeGroup nm g b) grp =
    if decide (grp = nm) then g else groupView b grp.
Proof.
  unfold groupView, storeGroup. simpl.
  destruct (decide (grp = nm)) as [->|Hne].
  - by rewrite lookup_insert_eq.
  - by rewrite lookup_insert_ne.
Qed.

Lemma isStarted_groupView (b : Babysitter) (grp c : string) :
  isStarted (components (groupView b grp)) c = startedIn b grp c.
Proof.
  unfold groupView, startedIn. by destruct (groups b !! grp).
Qed.

Lemma startColocationGroup_dep (o : nat -> option error)
    (b1 b2 : Babysitter) (g : group) :
  dep_App b1 = dep_App b2 -> dep_Id b1 = dep_Id b2 ->
  startColocationGroup o b1 g = startColocationGroup o b2 g.
Proof.
  intros Ha Hi. unfold startColocationGroup.
  destruct (_ =? _)%nat; [done|].
  generalize DefaultReplication 0%nat g.
  intros n. induction n as [|n IH]; intros r g0; simpl; [done|].
  rewrite Ha, Hi. by destruct (o r).
Qed.

(** [StartComponent] for a component that is already marked. *)
Lemma StartComponent_old (req : ComponentToStart)
    (o : nat -> option error) (b : Babysitter) :
  startedIn b (cts_ColocationGroup req) (cts_Component req) = true ->
  StartComponent req o b = Some (b, None).
Proof.
  intros Hs. unfold startedIn in Hs.
  destruct (groups b !! cts_ColocationGroup req) as [g|] eqn:Hg; [|done].
  by eapply StartComponent_started.
Qed.

(** [StartComponent] for a component that is not marked yet. *)
Lemma StartComponent_new (req : ComponentToStart)
    (o : nat -> option error) (b : Babysitter) :
  startedIn b (cts_ColocationGroup req) (cts_Component req) = false ->
  let g := groupView b (cts_ColocationGroup req) in
  exists asg,
    routingAlgo (mkAssignment [] (dep_App b) (dep_Id b) (cts_Component req) 0)
      (ri_Replicas (routing g))
    = Some (asg, sortStrings (ri_Replicas (routing g))) /\
    let g2 :=
      mkGroup (name g) (<[cts_Component req := true]> (components g))
        (if cts_IsRouted req
         then mkRoutingInfo (sortStrings (ri_Replicas (routing g)))
                (ri_Assignments (routing g) ++ [asg])
         else routing g)
        (envelopes g) (pids g) in
    StartComponent req o b =
      Some (storeGroup (cts_ColocationGroup req)
              (startColocationGroup o b g2).1 b,
            (startColocationGroup o b g2).2).
Proof.
  intros Hs. cbn zeta.
  destruct (getGroup_groupView (cts_ColocationGroup req) b)
    as (Hg2 & _ & _ & Ha & Hi).
  destruct (routingAlgo_total
              (mkAssignment [] (dep_App b) (dep_Id b) (cts_Component req) 0)
              (ri_Replicas (routing (groupView b (cts_ColocationGroup req)))))
    as (slices & Hr).
  eexists. split; [exact Hr|].
  unfold StartComponent.
  pose proof (fun g => storeGroup_getGroup (cts_ColocationGroup req) g b)
    as Hst.
  destruct (getGroup (cts_ColocationGroup req) b) as [b1 g] eqn:Eg.
  simpl in Hg2, Ha, Hi, Hst. subst g.
  rewrite isStarted_groupView, Hs, Ha, Hi.
  destruct (cts_IsRouted req).
  - simpl. rewrite Hr. simpl.
    rewrite (startColocationGroup_dep o b1 b) by done.
    destruct (startColocationGroup o b _) as [g3 e]. simpl.
    by rewrite Hst.
  - simpl.
    rewrite (startColocationGroup_dep o b1 b) by done.
    unfold setComponents.
    destruct (startColocationGroup o b _) as [g3 e]. simpl.
    by rewrite Hst.
Qed.

Lemma replicas_elem_group (b : Babysitter) (grp a : string) :
  a ∈ replicasOf b grp -> groups b !! grp = Some (groupView b grp).
Proof.
  unfold replicasOf, groupView.
  destruct (groups b !! grp); simpl; [done|].
  intros H. by apply elem_of_nil in H.
Qed.

(** [RegisterReplica] with an address that is registered already. *)
Lemma RegisterReplica_old (req : ReplicaToRegister) (b : Babysitter) :
  rtr_Address req ∈ replicasOf b (rtr_Group req) ->
  RegisterReplica req b = Some (b, None).
Proof.
  intros Hin. pose proof (replicas_elem_group _ _ _ Hin) as Hg.
  unfold RegisterReplica. rewrite (getGroup_present _ _ _ Hg).
  apply existsb_eqb_elem in Hin. unfold replicasOf in Hin. by rewrite Hin.
Qed.

(** [RegisterReplica] with a new address. *)
Lemma RegisterReplica_new (req : ReplicaToRegister) (b : Babysitter) :
  rtr_Address req ∉ replicasOf b (rtr_Group req) ->
  let g := groupView b (rtr_Group req) in
  exists asgs' reps',
    reassign (ri_Assignments (routing g))
      (ri_Replicas (routing g) ++ [rtr_Address req]) = Some (asgs', reps') /\
    RegisterReplica req b =
      Some (storeGroup (rtr_Group req)
              (mkGroup (name g) (components g) (mkRoutingInfo reps' asgs')
                 (envelopes g) (pids g ++ [rtr_Pid req])) b,
            None).
Proof.
  intros Hnew. cbn zeta.
  destruct (getGroup_groupView (rtr_Group req) b) as (Hg2 & _).
  pose proof (fun g => storeGroup_getGroup (rtr_Group req) g b) as Hst.
  unfold RegisterReplica.
  destruct (getGroup (rtr_Group req) b) as [b1 g] eqn:Eg.
  simpl in Hg2, Hst. subst g.
  destruct (existsb _ _) eqn:Ee.
  { apply existsb_eqb_elem in Ee. done. }
  destruct (reassign_spec
              (ri_Assignments (routing (groupView b (rtr_Group req))))
              (ri_Replicas (routing (groupView b (rtr_Group req)))
                 ++ [rtr_Address req])) as (asgs' & Hr & _).
  rewrite Hr. simpl. eexists _, _. split; [reflexivity|].
  by rewrite Hst.
Qed.

Lemma routingAlgo_sorted_input (a : Assignment) (xs : list string) :
  routingAlgo a (sortStrings xs) = routingAlgo a xs.
Proof. unfold routingAlgo. by rewrite sortStrings_idem. Qed.

Lemma routingAlgo_perm (a : Assignment) (xs ys : list string) :
  xs ≡ₚ ys -> routingAlgo a xs = routingAlgo a ys.
Proof.
  intros Hp. unfold routingAlgo. by rewrite (sortStrings_perm_eq xs ys Hp).
Qed.

Lemma routingAlgo_slices_eq (a1 a2 asg1 asg2 : Assignment)
    (xs c1 c2 : list string) :
  routingAlgo a1 xs = Some (asg1, c1) ->
  routingAlgo a2 xs = Some (asg2, c2) ->
  Slices asg1 = Slices asg2.
Proof.
  unfold routingAlgo. intros H1 H2.
  destruct (sortStrings xs) as [|x [|y l]].
  - by injection H1 as <- _; injection H2 as <- _.
  - by injection H1 as <- _; injection H2 as <- _.
  - destruct (splitLoop _ _ _); [|done].
    by injection H1 as <- _; injection H2 as <- _.
Qed.

Lemma upToDate_result (a asg : Assignment) (xs c : list string) :
  routingAlgo a xs = Some (asg, c) -> upToDate xs asg.
Proof.
  intros H. destruct (routingAlgo_total asg xs) as (s & Hs).
  eexists. split; [exact Hs|]. by eapply routingAlgo_slices_eq.
Qed.

Lemma upToDate_perm (xs ys : list string) (asg : Assignment) :
  xs ≡ₚ ys -> upToDate xs asg -> upToDate ys asg.
Proof.
  intros Hp (asg' & Hr & Hs). exists asg'. split; [|done].
  by rewrite <- (routingAlgo_perm asg xs ys Hp),
    <- (sortStrings_perm_eq xs ys Hp).
Qed.

Lemma routingAlgo_fields (a asg : Assignment) (xs c : list string) :
  routingAlgo a xs = Some (asg, c) ->
  c = sortStrings xs /\ App asg = App a /\
  DeploymentId asg = DeploymentId a /\ Component asg = Component a /\
  Version asg = wrap64 (Version a + 1).
Proof.
  intros H. destruct (routingAlgo_total a xs) as (s & Hs).
  rewrite Hs in H. by injection H as <- <-.
Qed.

(** Each assignment is replaced by what [routingAlgo] returns for it and
    the replicas the loop was entered with: the sorting of the shared
    slice by the earlier passes does not show. *)
Lemma reassign_Forall2 (asgs asgs' : list Assignment)
    (reps reps' : list string) :
  reassign asgs reps = Some (asgs', reps') ->
  Forall2 (fun old new =>
             exists c, routingAlgo old reps = Some (new, c)) asgs asgs' /\
  reps' ≡ₚ reps.
Proof.
  revert reps asgs'. induction asgs as [|a rest IH]; intros reps asgs' H.
  - simpl in H. injection H as <- <-. split; [constructor|done].
  - simpl in H.
    destruct (routingAlgo_total a reps) as (s & Hr).
    rewrite Hr in H. simpl in H.
    destruct (reassign rest (sortStrings reps)) as [[rest' reps'']|] eqn:Hre;
      [|done].
    simpl in H. injection H as <- <-.
    destruct (IH _ _ Hre) as [Hf Hp]. split.
    + constructor; [eauto|].
      eapply Forall2_impl; [exact Hf|]. simpl.
      intros old new (c & Hc). exists c.
      by rewrite <- routingAlgo_sorted_input.
    + by rewrite Hp, sortStrings_perm.
Qed.

(** [StartComponent], seen on the group records. *)
Lemma StartComponent_view (req : ComponentToStart)
    (o : nat -> option error) (b : Babysitter) :
  let G := cts_ColocationGroup req in
  let C := cts_Component req in
  exists b' e,
    StartComponent req o b = Some (b', e) /\
    dep_App b' = dep_App b /\ dep_Id b' = dep_Id b /\
    proxies b' = proxies b /\
    (forall grp, grp <> G -> groups b' !! grp = groups b !! grp) /\
    let g := groupView b G in
    let g' := groupView b' G in
    name g' = name g /\ pids g' = pids g /\
    envelopes g `prefix_of` envelopes g' /\
    components g' =
      (if startedIn b G C then components g
       else <[C := true]> (components g)) /\
    (startedIn b G C = true \/ cts_IsRouted req = false ->
     routing g' = routing g) /\
    (startedIn b G C = false -> cts_IsRouted req = true ->
     exists asg,
       routingAlgo (mkAssignment [] (dep_App b) (dep_Id b) C 0)
         (ri_Replicas (routing g)) = Some (asg, ri_Replicas (routing g')) /\
       ri_Assignments (routing g') = ri_Assignments (routing g) ++ [asg]).
Proof.
  cbn zeta.
  destruct (startedIn b (cts_ColocationGroup req) (cts_Component req)) eqn:Hs.
  - exists b, None. rewrite StartComponent_old by done.
    split_and!; done.
  - destruct (StartComponent_new req o b Hs) as (asg & Hr & Hsc).
    cbn zeta in Hsc. rewrite Hsc. clear Hsc.
    set (g := groupView b (cts_ColocationGroup req)) in *.
    set (g2 := mkGroup _ _ _ _ _).
    pose proof (startColocationGroup_only_appends o b g2)
      as (new & He & _ & _ & _ & Hn & Hc & Hro & Hp).
    eexists _, _. split; [reflexivity|].
    rewrite groupView_storeGroup, decide_True by done.
    rewrite Hn, Hc, Hro, Hp, He. simpl.
    split_and!; try done.
    + intros grp Hne. by rewrite lookup_insert_ne.
    + by apply prefix_app_r.
    + intros [?| ->]; done.
    + intros _ ->. exists asg. done.
Qed.

(** [RegisterReplica], seen on the group records. *)
Lemma RegisterReplica_view (req : ReplicaToRegister) (b : Babysitter) :
  let G := rtr_Group req in
  exists b',
    RegisterReplica req b = Some (b', None) /\
    dep_App b' = dep_App b /\ dep_Id b' = dep_Id b /\
    proxies b' = proxies b /\
    (forall grp, grp <> G -> groups b' !! grp = groups b !! grp) /\
    let g := groupView b G in
    let g' := groupView b' G in
    name g' = name g /\ components g' = components g /\
    envelopes g' = envelopes g /\
    if bool_decide (rtr_Address req ∈ ri_Replicas (routing g))
    then b' = b
    else
      pids g' = pids g ++ [rtr_Pid req] /\
      ri_Replicas (routing g') ≡ₚ ri_Replicas (routing g) ++ [rtr_Address req] /\
      (ri_Assignments (routing g) <> [] ->
       ri_Replicas (routing g') =
         sortStrings (ri_Replicas (routing g) ++ [rtr_Address req])) /\
      Forall2 (fun old new =>
                 exists c,
                   routingAlgo old
                     (ri_Replicas (routing g) ++ [rtr_Address req])
                   = Some (new, c))
        (ri_Assignments (routing g)) (ri_Assignments (routing g')).
Proof.
  cbn zeta. case_bool_decide as Hin.
  - exists b. rewrite RegisterReplica_old by done. done.
  - destruct (RegisterReplica_new req b Hin) as (asgs' & reps' & Hre & ->).
    eexists. split; [reflexivity|].
    rewrite groupView_storeGroup, decide_True by done. simpl.
    destruct (reassign_Forall2 _ _ _ _ Hre) as [Hf Hp].
    split_and!; try done.
    + intros grp Hne. by rewrite lookup_insert_ne.
    + intros Hne.
      destruct (reassign_spec
                  (ri_Assignments (routing (groupView b (rtr_Group req))))
                  (ri_Replicas (routing (groupView b (rtr_Group req)))
                     ++ [rtr_Address req])) as (x & Hx & _).
      rewrite Hre in Hx. injection Hx as _ ->.
      by destruct (ri_Assignments _).
Qed.

(** ** StartComponent and RegisterReplica, one call *)

(** The assignment of a new routed component is appended before the group
    is spawned, so it is there whatever the spawn does: whatever
    [envelope.NewEnvelope] answers, errors included, [StartComponent] for a
    routed component that is not marked leaves the component marked and
    the assignments of the group extended by one assignment, which is the
    result of [routingAlgo] on a fresh assignment and the replicas of the
    group and has version 1. *)
Theorem StartComponent_assignment_before_spawn
    (req : ComponentToStart) (newEnvelope : nat -> option error)
    (b : Babysitter) :
  startedIn b (cts_ColocationGroup req) (cts_Component req) = false ->
  cts_IsRouted req = true ->
  exists b' e asg,
    StartComponent req newEnvelope b = Some (b', e) /\
    routingAlgo
      (mkAssignment [] (dep_App b) (dep_Id b) (cts_Component req) 0)
      (replicasOf b (cts_ColocationGroup req))
    = Some (asg, replicasOf b' (cts_ColocationGroup req)) /\
    ri_Assignments (routing (groupView b' (cts_ColocationGroup req))) =
      ri_Assignments (routing (groupView b (cts_ColocationGroup req)))
        ++ [asg] /\
    Version asg = 1 /\ Component asg = cts_Component req /\
    App asg = dep_App b /\ DeploymentId asg = dep_Id b /\
    startedIn b' (cts_ColocationGroup req) (cts_Component req) = true.
Proof.
  intros Hs Hr.
  destruct (StartComponent_view req newEnvelope b)
    as (b' & e & Hsc & _ & _ & _ & _ & _ & _ & _ & Hc & _ & Hnew).
  destruct (Hnew Hs Hr) as (asg & Hra & Has).
  exists b', e, asg. split; [done|]. split; [done|]. split; [done|].
  destruct (routingAlgo_fields _ _ _ _ Hra) as (_ & Ha & Hd & Hco & Hv).
  split_and!; try done.
  rewrite <- isStarted_groupView, Hc, Hs. unfold isStarted.
  by rewrite lookup_insert_eq.
Qed.

Lemma StartComponent_assignment_before_spawn_witness :
  exists b' e asg,
    StartComponent (mkComponentToStart "g" "c" true) failFirst
      (NewBabysitter "app" "dep") = Some (b', e) /\
    routingAlgo
      (mkAssignment [] (dep_App (NewBabysitter "app" "dep"))
         (dep_Id (NewBabysitter "app" "dep")) "c" 0)
      (replicasOf (NewBabysitter "app" "dep") "g")
    = Some (asg, replicasOf b' "g") /\
    ri_Assignments (routing (groupView b' "g")) =
      ri_Assignments (routing (groupView (NewBabysitter "app" "dep") "g"))
        ++ [asg] /\
    Version asg = 1 /\ Component asg = "c"%string /\
    App asg = dep_App (NewBabysitter "app" "dep") /\
    DeploymentId asg = dep_Id (NewBabysitter "app" "dep") /\
    startedIn b' "g" "c" = true.
Proof.
  apply (StartComponent_assignment_before_spawn
           (mkComponentToStart "g" "c" true) failFirst
           (NewBabysitter "app" "dep")).
  - reflexivity.
  - reflexivity.
Defined.

(** What [StartComponent] never does: it always returns, and it leaves the
    proxies, every other group, and the pids of its group as they were; it
    keeps the replicas of its group up to their order, never removes an
    assignment, an envelope or a mark, and does not touch the routing info
    at all for a component that is not routed. *)
Theorem StartComponent_frame
    (req : ComponentToStart) (newEnvelope : nat -> option error)
    (b : Babysitter) :
  let G := cts_ColocationGroup req in
  exists b' e,
    StartComponent req newEnvelope b = Some (b', e) /\
    proxies b' = proxies b /\
    (forall grp, grp <> G -> groups b' !! grp = groups b !! grp) /\
    pidsOf b' G = pidsOf b G /\
    replicasOf b' G ≡ₚ replicasOf b G /\
    ri_Assignments (routing (groupView b G)) `prefix_of`
      ri_Assignments (routing (groupView b' G)) /\
    envelopes (groupView b G) `prefix_of` envelopes (groupView b' G) /\
    (forall c, startedIn b G c = true -> startedIn b' G c = true) /\
    (cts_IsRouted req = false ->
     routing (groupView b' G) = routing (groupView b G)).
Proof.
  cbn zeta.
  destruct (StartComponent_view req newEnvelope b)
    as (b' & e & Hsc & _ & _ & Hpx & Hoth & _ & Hp & He & Hc & Hold & Hnew).
  exists b', e. split; [done|]. split; [done|]. split; [done|].
  split; [done|].
  assert (Hcomp : forall c,
            startedIn b (cts_ColocationGroup req) c = true ->
            startedIn b' (cts_ColocationGroup req) c = true).
  { intros c. rewrite <- !isStarted_groupView, Hc.
    destruct (startedIn b (cts_ColocationGroup req) (cts_Component req))
      eqn:Hs; [done|].
    unfold isStarted.
    destruct (decide (c = cts_Component req)) as [->|Hne].
    - by rewrite lookup_insert_eq.
    - by rewrite lookup_insert_ne. }
  destruct (startedIn b (cts_ColocationGroup req) (cts_Component req)) eqn:Hs;
    [|destruct (cts_IsRouted req) eqn:Hr].
  - unfold replicasOf. rewrite (Hold (or_introl eq_refl)). done.
  - destruct (Hnew eq_refl eq_refl) as (asg & Hra & Has).
    destruct (routingAlgo_fields _ _ _ _ Hra) as (Hrep & _).
    unfold replicasOf. rewrite Hrep, Has.
    split; [apply sortStrings_perm|].
    split; [by apply prefix_app_r|]. done.
  - unfold replicasOf. rewrite (Hold (or_intror eq_refl)). done.
Qed.

(** Registering an address twice is registering it once: after
    [RegisterReplica] has returned, a second call for the same group and
    address, with any pid, returns nil and changes nothing; in particular
    the second pid is not recorded. *)
Theorem RegisterReplica_idempotent (req : ReplicaToRegister) (b : Babysitter) :
  exists b1,
    RegisterReplica req b = Some (b1, None) /\
    forall pid',
      RegisterReplica
        (mkReplicaToRegister (rtr_Group req) (rtr_Address req) pid') b1
      = Some (b1, None).
Proof.
  destruct (RegisterReplica_view req b)
    as (b1 & Hr & _ & _ & _ & _ & _ & _ & _ & Hcase).
  exists b1. split; [done|]. intros pid'.
  apply RegisterReplica_old. simpl. unfold replicasOf.
  cbn zeta in Hcase. case_bool_decide as Hin.
  - by subst b1.
  - destruct Hcase as (_ & Hp & _). rewrite Hp.
    apply elem_of_app. right. by apply list_elem_of_singleton.
Qed.

(** [RegisterReplica] with a new address: the address joins the replicas
    of the group, the pid goes to the end of its pids, and every
    assignment of the group is replaced, in place, by the result of
    [routingAlgo] on it and the extended replicas, so that its version
    goes up by one; the components and envelopes of the group, the other
    groups and the proxies are left as they were. *)
Theorem RegisterReplica_new_address (req : ReplicaToRegister) (b : Babysitter) :
  let G := rtr_Group req in
  rtr_Address req ∉ replicasOf b G ->
  exists b',
    RegisterReplica req b = Some (b', None) /\
    replicasOf b' G ≡ₚ replicasOf b G ++ [rtr_Address req] /\
    pidsOf b' G = pidsOf b G ++ [rtr_Pid req] /\
    Forall2 (fun old new =>
               (exists c,
                   routingAlgo old (replicasOf b G ++ [rtr_Address req])
                   = Some (new, c)) /\
               Version new = (Version old + 1) mod 2 ^ 64 /\
               Component new = Component old)
      (ri_Assignments (routing (groupView b G)))
      (ri_Assignments (routing (groupView b' G))) /\
    components (groupView b' G) = components (groupView b G) /\
    envelopes (groupView b' G) = envelopes (groupView b G) /\
    (forall grp, grp <> G -> groups b' !! grp = groups b !! grp) /\
    proxies b' = proxies b.
Proof.
  cbn zeta. intros Hnew.
  destruct (RegisterReplica_view req b)
    as (b' & Hr & _ & _ & Hpx & Hoth & _ & Hc & He & Hcase).
  cbn zeta in Hcase. unfold replicasOf in Hnew.
  rewrite bool_decide_eq_false_2 in Hcase by done.
  destruct Hcase as (Hp & Hrep & _ & Hf).
  exists b'. split_and!; try done.
  eapply Forall2_impl; [exact Hf|]. simpl.
  intros old new (c & Hc'). split; [eauto|].
  destruct (routingAlgo_fields _ _ _ _ Hc') as (_ & _ & _ & Hco & Hv).
  done.
Qed.

Lemma RegisterReplica_new_address_witness :
  exists b',
    RegisterReplica (mkReplicaToRegister "g" "a" 101) oneReplicaState
      = Some (b', None) /\
    replicasOf b' "g" ≡ₚ replicasOf oneReplicaState "g" ++ ["a"%string] /\
    pidsOf b' "g" = pidsOf oneReplicaState "g" ++ [101] /\
    Forall2 (fun old new =>
               (exists c,
                   routingAlgo old
                     (replicasOf oneReplicaState "g" ++ ["a"%string])
                   = Some (new, c)) /\
               Version new = (Version old + 1) mod 2 ^ 64 /\
               Component new = Component old)
      (ri_Assignments (routing (groupView oneReplicaState "g")))
      (ri_Assignments (routing (groupView b' "g"))) /\
    components (groupView b' "g") = components (groupView oneReplicaState "g") /\
    envelopes (groupView b' "g") = envelopes (groupView oneReplicaState "g") /\
    (forall grp, grp <> "g"%string ->
       groups b' !! grp = groups oneReplicaState !! grp) /\
    proxies b' = proxies oneReplicaState.
Proof.
  apply (RegisterReplica_new_address
           (mkReplicaToRegister "g" "a" 101) oneReplicaState).
  vm_compute. intros Hin. apply list_elem_of_singleton in Hin. discriminate.
Defined.

(** ** Invariants of the group registry *)

Lemma registered_app (cs1 cs2 : list call) (grp : string) :
  registered (cs1 ++ cs2) grp = registered cs1 grp ++ registered cs2 grp.
Proof.
  induction cs1 as [|[req o|req] cs1 IH]; simpl; [done|done|].
  destruct (bool_decide _); simpl; by rewrite IH.
Qed.

Lemma Forall2_right {A B : Type} (P : A -> B -> Prop) (Q : B -> Prop)
    (l : list A) (k : list B) :
  Forall2 P l k -> (forall x y, P x y -> Q y) -> Forall Q k.
Proof. intros H HPQ. induction H; constructor; eauto. Qed.

Lemma groupView_other (b b' : Babysitter) (grp : string) :
  groups b' !! grp = groups b !! grp -> groupView b' grp = groupView b grp.
Proof. unfold groupView. by intros ->. Qed.

(** What holds of every group after any sequence of calls from the initial
    state. *)
Lemma run_registry_invariant (app dep : string) (cs : list call) :
  exists b,
    run cs (NewBabysitter app dep) = Some b /\
    dep_App b = app /\ dep_Id b = dep /\
    forall grp,
      let g := groupView b grp in
      NoDup (ri_Replicas (routing g)) /\
      (forall a, a ∈ ri_Replicas (routing g) <-> a ∈ registered cs grp) /\
      length (pids g) = length (ri_Replicas (routing g)) /\
      Forall (upToDate (ri_Replicas (routing g)))
        (ri_Assignments (routing g)) /\
      Forall (fun a => App a = app /\ DeploymentId a = dep)
        (ri_Assignments (routing g)) /\
      (forall c v, components g !! c = Some v -> v = true).
Proof.
  induction cs as [|x cs IH] using rev_ind.
  - eexists. split; [reflexivity|]. split; [done|]. split; [done|].
    intros grp. unfold groupView. simpl. rewrite lookup_empty. simpl.
    split_and!; try done; try constructor.
  - destruct IH as (b & Hrun & Hap & Hdp & Hinv).
    rewrite run_snoc, Hrun. simpl.
    destruct x as [req o|req]; simpl.
    + destruct (StartComponent_view req o b)
        as (b' & e & -> & Ha' & Hd' & _ & Hoth & _ & Hp & _ & Hc & Hold
            & Hnew).
      simpl. exists b'. split; [done|]. split; [congruence|].
      split; [congruence|]. intros grp. cbn zeta.
      rewrite registered_app. simpl. rewrite app_nil_r.
      destruct (decide (grp = cts_ColocationGroup req)) as [->|Hne].
      2:{ rewrite (groupView_other b b' grp) by auto. apply Hinv. }
      destruct (Hinv (cts_ColocationGroup req))
        as (I1 & I2 & I3 & I4 & I5 & I6). cbn zeta in *.
      assert (Hvals : forall c v,
                components (groupView b' (cts_ColocationGroup req)) !! c
                = Some v -> v = true).
      { intros c v. rewrite Hc.
        destruct (startedIn b _ _); [apply I6|].
        destruct (decide (c = cts_Component req)) as [->|Hnc].
        - rewrite lookup_insert_eq. congruence.
        - rewrite lookup_insert_ne by done. apply I6. }
      destruct (startedIn b (cts_ColocationGroup req) (cts_Component req))
        eqn:Hs; [|destruct (cts_IsRouted req) eqn:Hr].
      * rewrite (Hold (or_introl eq_refl)), Hp. done.
      * destruct (Hnew eq_refl eq_refl) as (asg & Hra & Has).
        destruct (routingAlgo_fields _ _ _ _ Hra)
          as (Hrep & Hfa & Hfd & _ & _).
        simpl in Hfa, Hfd.
        pose proof (sortStrings_perm
          (ri_Replicas (routing (groupView b (cts_ColocationGroup req)))))
          as Hperm.
        rewrite Hrep, Has, Hp.
        split_and!; try done.
        -- by rewrite Hperm.
        -- intros a. by rewrite Hperm.
        -- by rewrite Hperm.
        -- apply Forall_app. split.
           ++ eapply Forall_impl; [exact I4|]. intros a.
              apply upToDate_perm. by symmetry.
           ++ constructor; [|constructor].
              eapply upToDate_perm; [symmetry; exact Hperm|].
              rewrite Hrep in Hra. by eapply upToDate_result.
        -- apply Forall_app. split; [done|].
           constructor; [|constructor]. split; congruence.
      * rewrite (Hold (or_intror eq_refl)), Hp. done.
    + destruct (RegisterReplica_view req b)
        as (b' & -> & Ha' & Hd' & _ & Hoth & _ & Hc & _ & Hcase).
      simpl. exists b'. split; [done|]. split; [congruence|].
      split; [congruence|]. intros grp. cbn zeta.
      rewrite registered_app. simpl.
      destruct (decide (grp = rtr_Group req)) as [->|Hne].
      2:{ rewrite (groupView_other b b' grp) by auto.
          rewrite bool_decide_eq_false_2 by done.
          rewrite app_nil_r. apply Hinv. }
      rewrite bool_decide_eq_true_2 by done.
      destruct (Hinv (rtr_Group req)) as (I1 & I2 & I3 & I4 & I5 & I6).
      cbn zeta in *. case_bool_decide as Hin.
      * subst b'. split_and!; try done.
        intros a. rewrite elem_of_app, list_elem_of_singleton, <- I2.
        split; [tauto|]. intros [?| ->]; done.
      * destruct Hcase as (Hp & Hrep & _ & Hf).
        rewrite Hc, Hp. split_and!; try done.
        -- rewrite Hrep.
           apply NoDup_app. split; [done|]. split; [|apply NoDup_singleton].
           intros a Hx Hy. apply list_elem_of_singleton in Hy as ->. done.
        -- intros a. rewrite Hrep, !elem_of_app, I2. done.
        -- rewrite Hrep, !length_app. simpl. lia.
        -- eapply Forall2_right; [exact Hf|]. simpl.
           intros old new (c & Hc'). eapply upToDate_perm.
           ++ symmetry. exact Hrep.
           ++ by eapply upToDate_result.
        -- assert (Hboth : Forall2 (fun old new =>
                     (App old = app /\ DeploymentId old = dep) ->
                     (App new = app /\ DeploymentId new = dep))
                     (ri_Assignments (routing (groupView b (rtr_Group req))))
                     (ri_Assignments (routing (groupView b' (rtr_Group req))))).
           { eapply Forall2_impl; [exact Hf|]. simpl.
             intros old new (c & Hc') [? ?].
             destruct (routingAlgo_fields _ _ _ _ Hc') as (_ & ? & ? & _).
             split; congruence. }
           clear -Hboth I5.
           induction Hboth; [constructor|].
           inversion I5; subst. constructor; auto.
Qed.

(** After any sequence of [StartComponent] and [RegisterReplica] calls the
    replicas of a group are the addresses registered for it, each once,
    and the group has as many pids as replicas: a registration that
    repeats an address adds neither. *)
Theorem replicas_are_registered_addresses
    (app dep : string) (cs : list call) :
  exists b,
    run cs (NewBabysitter app dep) = Some b /\
    forall grp,
      NoDup (replicasOf b grp) /\
      (forall a, a ∈ replicasOf b grp <-> a ∈ registered cs grp) /\
      length (pidsOf b grp) = length (replicasOf b grp).
Proof.
  destruct (run_registry_invariant app dep cs) as (b & Hrun & _ & _ & Hinv).
  exists b. split; [done|]. intros grp.
  destruct (Hinv grp) as (I1 & I2 & I3 & _). done.
Qed.

(** After any sequence of calls every stored assignment is up to date
    with the replicas of its group: running [routingAlgo] on it with the
    stored replicas would return the slices it already has.  Every
    assignment carries the application and deployment of the
    supervisor. *)
Theorem assignments_up_to_date (app dep : string) (cs : list call) :
  exists b,
    run cs (NewBabysitter app dep) = Some b /\
    forall grp asg,
      asg ∈ ri_Assignments (routing (groupView b grp)) ->
      (exists asg',
          routingAlgo asg (replicasOf b grp)
          = Some (asg', sortStrings (replicasOf b grp)) /\
          Slices asg' = Slices asg) /\
      App asg = app /\ DeploymentId asg = dep.
Proof.
  destruct (run_registry_invariant app dep cs) as (b & Hrun & _ & _ & Hinv).
  exists b. split; [done|]. intros grp asg Hin.
  destruct (Hinv grp) as (_ & _ & _ & I4 & I5 & _).
  rewrite Forall_forall in I4, I5.
  split; [apply (I4 asg Hin)|apply (I5 asg Hin)].
Qed.

(** After any sequence of calls [GetComponentsToStart] returns, for every
    group, exactly the components that some [StartComponent] named for
    that group. *)
Theorem GetComponentsToStart_marked (app dep : string) (cs : list call) :
  exists b,
    run cs (NewBabysitter app dep) = Some b /\
    forall grp c,
      c ∈ (GetComponentsToStart grp b).2 <-> is_Some (markedBy cs grp c).
Proof.
  destruct (run_registry_invariant app dep cs) as (b & Hrun & _ & _ & Hinv).
  destruct (run_invariant app dep cs) as (b0 & Hrun0 & Hinv0).
  assert (b0 = b) as -> by congruence.
  exists b. split; [done|]. intros grp c.
  destruct (Hinv grp) as (_ & _ & _ & _ & _ & I6).
  destruct (Hinv0 grp c) as [Hm _]. rewrite <- Hm.
  unfold GetComponentsToStart.
  destruct (getGroup_groupView grp b) as (Hg & _).
  destruct (getGroup grp b) as [b1 g]. simpl in *. subst g.
  rewrite elem_of_dom, <- isStarted_groupView. unfold isStarted.
  cbn zeta in I6.
  destruct (components (groupView b grp) !! c) as [v|] eqn:Hv; simpl.
  - rewrite (I6 c v Hv). split; [done|]. eauto.
  - split; [by intros [? ?]|done].
Qed.

(** ** Reads *)

(** [GetRoutingInfo] and [GetComponentsToStart] return what is stored for
    the group.  They leave a supervisor that knows the group as it is; for
    an unknown group they reply with the empty routing info and the empty
    set, and register an empty record for it, which changes what no group
    reads as. *)
Theorem reads_register_unknown_group (grp : string) (b : Babysitter) :
  (GetRoutingInfo grp b).2 = routing (groupView b grp) /\
  (GetComponentsToStart grp b).2 = dom (components (groupView b grp)) /\
  (GetComponentsToStart grp b).1 = (GetRoutingInfo grp b).1 /\
  (is_Some (groups b !! grp) -> (GetRoutingInfo grp b).1 = b) /\
  (groups b !! grp = None ->
   (GetRoutingInfo grp b).2 = mkRoutingInfo [] [] /\
   (GetComponentsToStart grp b).2 = ∅ /\
   groups (GetRoutingInfo grp b).1 = <[grp := emptyGroup grp]> (groups b)) /\
  proxies (GetRoutingInfo grp b).1 = proxies b /\
  forall grp', groupView (GetRoutingInfo grp b).1 grp' = groupView b grp'.
Proof.
  unfold GetRoutingInfo, GetComponentsToStart, getGroup, groupView.
  destruct (groups b !! grp) as [g|] eqn:Hg; simpl.
  - split_and!; done.
  - split_and!; try done.
    intros grp'. destruct (decide (grp = grp')) as [<-|Hne].
    + by rewrite lookup_insert_eq, Hg.
    + by rewrite lookup_insert_ne.
Qed.

(** ** Exported listeners, in sequence *)

Lemma ExportListener_keeps_proxy (req : ExportListenerRequest)
    (listen : ListenResult) (b : Babysitter) (L : string) (p : proxyInfo) :
  proxies b !! L = Some p ->
  exists p',
    proxies (ExportListener req listen b).1.1 !! L = Some p' /\
    addr p' = addr p /\ listener p' = listener p.
Proof.
  intros Hp. unfold ExportListener.
  destruct (decide (elr_Listener_Name req = L)) as [He|Hne].
  - rewrite He, Hp. simpl. rewrite lookup_insert_eq. eauto.
  - destruct (proxies b !! elr_Listener_Name req) as [q|].
    + simpl. rewrite lookup_insert_ne by done. eauto.
    + destruct listen as [a|err]; simpl.
      * rewrite lookup_insert_ne by done. eauto.
      * destruct (errorsIs err EADDRINUSE); simpl; eauto.
Qed.

Lemma runExports_keeps_proxy
    (es : list (ExportListenerRequest * ListenResult)) (b : Babysitter)
    (L : string) (p : proxyInfo) :
  proxies b !! L = Some p ->
  exists p',
    proxies (runExports es b) !! L = Some p' /\ addr p' = addr p.
Proof.
  revert b p. induction es as [|[req lis] es IH]; intros b p Hp.
  - exists p. done.
  - unfold runExports. simpl.
    destruct (ExportListener_keeps_proxy req lis b L p Hp)
      as (p1 & Hp1 & Ha1 & _).
    destruct (IH _ _ Hp1) as (p' & Hp' & Ha').
    exists p'. split; [exact Hp'|congruence].
Qed.

(** One proxy per listener, at one address: once a listener has been
    exported at an address, every later [ExportListener] for that
    listener, after any other exports, replies with that same address and
    no error, whatever [net.Listen] would answer (it is not called). *)
Theorem ExportListener_address_is_stable
    (req0 req : ExportListenerRequest) (a : string) (listen : ListenResult)
    (es : list (ExportListenerRequest * ListenResult)) (b : Babysitter) :
  proxies b !! elr_Listener_Name req0 = None ->
  elr_Listener_Name req = elr_Listener_Name req0 ->
  exists b',
    ExportListener req listen
      (runExports es (ExportListener req0 (ListenOk a) b).1.1)
    = (b', Some (mkExportListenerReply a ""), None).
Proof.
  intros Hnone Hname.
  set (b1 := (ExportListener req0 (ListenOk a) b).1.1).
  assert (Hp1 : proxies b1 !! elr_Listener_Name req0 =
                Some (mkProxyInfo (elr_Listener_Name req0)
                        [elr_Listener_Addr req0] a)).
  { unfold b1, ExportListener. rewrite Hnone. simpl.
    apply lookup_insert_eq. }
  destruct (runExports_keeps_proxy es b1 _ _ Hp1) as (p' & Hp' & Ha').
  unfold ExportListener at 1. rewrite Hname, Hp'. simpl in Ha'.
  rewrite Ha'. eauto.
Qed.

Lemma ExportListener_address_is_stable_witness :
  exists b',
    ExportListener
      (mkExportListenerRequest "L" "10.0.0.2:9000" "127.0.0.1:0")
      (ListenErr (addrInUse "127.0.0.1:0"))
      (runExports
         [(mkExportListenerRequest "M" "10.0.0.3:9000" "127.0.0.1:0",
           ListenOk "127.0.0.1:40001")]
         (ExportListener
            (mkExportListenerRequest "L" "10.0.0.1:9000" "127.0.0.1:0")
            (ListenOk "127.0.0.1:40000")
            (NewBabysitter "app" "dep")).1.1)
    = (b', Some (mkExportListenerReply "127.0.0.1:40000" ""), None).
Proof.
  apply (ExportListener_address_is_stable
           (mkExportListenerRequest "L" "10.0.0.1:9000" "127.0.0.1:0")
           (mkExportListenerRequest "L" "10.0.0.2:9000" "127.0.0.1:0")
           "127.0.0.1:40000" (ListenErr (addrInUse "127.0.0.1:0"))
           [(mkExportListenerRequest "M" "10.0.0.3:9000" "127.0.0.1:0",
             ListenOk "127.0.0.1:40001")]
           (NewBabysitter "app" "dep")).
  - reflexivity.
  - reflexivity.
Defined.

(** What [ExportListener] never does: it never touches the groups or the
    proxy of another listener and never removes a proxy; for a listener
    that has a proxy it adds the backend of the request to that proxy and
    keeps its address. *)
Theorem ExportListener_frame (req : ExportListenerRequest)
    (listen : ListenResult) (b : Babysitter) :
  let b' := (ExportListener req listen b).1.1 in
  groups b' = groups b /\
  dep_App b' = dep_App b /\ dep_Id b' = dep_Id b /\
  (forall L, L <> elr_Listener_Name req ->
     proxies b' !! L = proxies b !! L) /\
  (forall L, is_Some (proxies b !! L) -> is_Some (proxies b' !! L)) /\
  (forall p, proxies b !! elr_Listener_Name req = Some p ->
     proxies b' !! elr_Listener_Name req =
       Some (mkProxyInfo (listener p) (proxy p ++ [elr_Listener_Addr req])
               (addr p))).
Proof.
  cbn zeta.
  assert (Hkeep : forall L, is_Some (proxies b !! L) ->
            is_Some (proxies (ExportListener req listen b).1.1 !! L)).
  { intros L [p Hp].
    destruct (ExportListener_keeps_proxy req listen b L p Hp) as (p' & -> & _).
    eauto. }
  unfold ExportListener in *.
  destruct (proxies b !! elr_Listener_Name req) as [q|] eqn:Hq.
  - simpl in *. split_and!; try done.
    + intros L Hne. by rewrite lookup_insert_ne.
    + intros p [= <-]. by rewrite lookup_insert_eq.
  - destruct listen as [a|err]; simpl in *.
    + split_and!; try done.
      intros L Hne. by rewrite lookup_insert_ne.
    + destruct (errorsIs err EADDRINUSE); simpl in *; split_and!; done.
Qed.

(** ** Spawning, in sequence *)

(** As long as no worker construction fails, a group is either not
    spawned or fully spawned: after any sequence of calls a group without
    started component has no envelope and a group with a started component
    has exactly [DefaultReplication]. *)
Theorem envelopes_when_spawns_succeed (app dep : string) (cs : list call) :
  spawnsSucceed cs ->
  exists b,
    run cs (NewBabysitter app dep) = Some b /\
    forall grp,
      length (envelopes (groupView b grp)) =
        if bool_decide (components (groupView b grp) = ∅) then 0%nat
        else DefaultReplication.
Proof.
  induction cs as [|x cs IH] using rev_ind; intros Hok.
  - eexists. split; [reflexivity|]. intros grp.
    unfold groupView. simpl. by rewrite lookup_empty.
  - destruct IH as (b & Hrun & Hinv).
    { intros req o Hin. apply (Hok req o).
      apply elem_of_app. by left. }
    rewrite run_snoc, Hrun. simpl.
    destruct x as [req o|req]; simpl.
    + assert (Ho : forall r, o r = None).
      { apply (Hok req o). apply elem_of_app. right.
        by apply list_elem_of_singleton. }
      destruct (startedIn b (cts_ColocationGroup req) (cts_Component req))
        eqn:Hs.
      * rewrite StartComponent_old by done. simpl. eauto.
      * destruct (StartComponent_new req o b Hs) as (asg & _ & Hsc).
        cbn zeta in Hsc. rewrite Hsc. clear Hsc. simpl.
        eexists. split; [reflexivity|]. intros grp.
        rewrite groupView_storeGroup.
        destruct (decide (grp = cts_ColocationGroup req)) as [->|Hne];
          [|apply Hinv].
        set (g := groupView b (cts_ColocationGroup req)) in *.
        set (g2 := mkGroup _ _ _ _ _).
        pose proof (startColocationGroup_only_appends o b g2)
          as (new & _ & _ & _ & _ & _ & Hc & _ & _).
        rewrite Hc. simpl.
        rewrite bool_decide_eq_false_2 by apply insert_non_empty.
        specialize (Hinv (cts_ColocationGroup req)). fold g in Hinv.
        unfold startColocationGroup. simpl.
        case_bool_decide.
        -- destruct (envelopes g) as [|? ?] eqn:He; [|done].
           simpl. rewrite !Ho. done.
        -- rewrite Hinv. simpl. done.
    + destruct (RegisterReplica_view req b)
        as (b' & -> & _ & _ & _ & Hoth & _ & Hc & He & _).
      simpl. exists b'. split; [done|]. intros grp.
      destruct (decide (grp = rtr_Group req)) as [->|Hne].
      * cbn zeta in *. rewrite Hc, He. apply Hinv.
      * rewrite (groupView_other b b' grp) by auto. apply Hinv.
Qed.

Lemma envelopes_when_spawns_succeed_witness :
  exists b,
    run [CallRegisterReplica (mkReplicaToRegister "g" "b" 100);
         CallStartComponent (mkComponentToStart "g" "c" true) allOk;
         CallStartComponent (mkComponentToStart "g" "d" false) allOk]
        (NewBabysitter "app" "dep") = Some b /\
    forall grp,
      length (envelopes (groupView b grp)) =
        if bool_decide (components (groupView b grp) = ∅) then 0%nat
        else DefaultReplication.
Proof.
  apply (envelopes_when_spawns_succeed "app" "dep"
           [CallRegisterReplica (mkReplicaToRegister "g" "b" 100);
            CallStartComponent (mkComponentToStart "g" "c" true) allOk;
            CallStartComponent (mkComponentToStart "g" "d" false) allOk]).
  intros req o Hin r.
  repeat (apply elem_of_cons in Hin as [Hin|Hin]; [by inversion Hin|]).
  by apply elem_of_nil in Hin.
Defined.
